(** * GWAS hands-on notebook: the data preparation and result writing of
      [2_GWAS.ipynb], embedded cell by cell.

    The notebook loads a phenotype table (pandas), a genotype file and a
    kinship file (h5py), aligns the three on their accession identifiers,
    filters SNPs on minor allele frequency (numpy), calls the external
    association runner [limix.qtl.scan] twice and writes two CSV files.

    Python values are modelled as follows.
    - a 1-D array or list is a [seq]; a 2-D array is an [array2] (its rows
      and its second dimension, which numpy keeps even without rows);
    - an exception is a [Raise] in the [result] monad; file writes go to an
      explicit file store threaded by the [io] monad;
    - [float64] is an abstract type [F] with the two operations the notebook
      applies to it (true division of integers and [>=]); SNP calls are
      integers ([int]), accession identifiers any type with decidable
      equality;
    - the association runner is a parameter [scan]. *)

From Stdlib Require Import String.
From HB Require Import structures.
From mathcomp Require Import boot order.
From mathcomp Require Import ssralg ssrnum ssrint rat.

Set Implicit Arguments.
Unset Strict Implicit.
Unset Printing Implicit Defensive.

Import Order.TTheory GRing.Theory Num.Theory.

(** ** Python exceptions and sequencing *)

Module Py.

Inductive exn : Type :=
  | KeyError | IndexError | TypeError | ValueError | RunnerError.

Inductive result (A : Type) : Type :=
  | Ok of A
  | Raise of exn.

Arguments Raise {A} e.

Definition bind (A B : Type) (m : result A) (k : A -> result B) : result B :=
  match m with
  | Ok a => k a
  | Raise e => Raise e
  end.

Definition is_ok (A : Type) (m : result A) : bool :=
  if m is Ok _ then true else false.

(** A comprehension whose body may raise: the first exception wins. *)
Fixpoint mapM (A B : Type) (f : A -> result B) (s : seq A) : result (seq B) :=
  match s with
  | [::] => Ok [::]
  | a :: s' =>
      bind (f a) (fun b => bind (mapM f s') (fun bs => Ok (b :: bs)))
  end.

End Py.

Import Py.

Notation "'let*' x ':=' m 'in' k" := (Py.bind m (fun x => k))
  (at level 200, x name, m at level 100, k at level 200,
   right associativity,
   format "'[v' 'let*'  x  ':='  m  'in' '/' k ']'").

(** ** numpy and h5py arrays *)

Section Indexing.

Variable T : Type.

(** [s[i]] for [i >= 0]. *)
Definition onth (s : seq T) (i : nat) : option T :=
  nth None [seq Some x | x <- s] i.

Definition getitem (s : seq T) (i : nat) : result T :=
  if onth s i is Some x then Ok x else Raise IndexError.

(** numpy integer-array indexing [s[idx]]. *)
Definition take_idx (s : seq T) (idx : seq nat) : result (seq T) :=
  mapM (getitem s) idx.

End Indexing.

Section Arrays.

Variable T : Type.

(** A 2-D array: [shape = (size rows, ncols)]. *)
Record array2 : Type := Array2 { ncols : nat; rows : seq (seq T) }.

Definition shape (a : array2) : nat * nat := (size (rows a), ncols a).

Definition wf_array2 (a : array2) : bool :=
  all (fun r => size r == ncols a) (rows a).

(** h5py accepts an index list only in strictly increasing order. *)
Definition h5_increasing (idx : seq nat) : bool := sorted ltn idx.

(** h5py [dset[idx]] on a 1-D dataset. *)
Definition h5_take (s : seq T) (idx : seq nat) : result (seq T) :=
  if h5_increasing idx then take_idx s idx else Raise TypeError.

(** h5py [dset[:, idx]] on a 2-D dataset. *)
Definition h5_take_cols (a : array2) (idx : seq nat) : result array2 :=
  if ~~ h5_increasing idx then Raise TypeError
  else if ~~ all (fun i => i < ncols a) idx then Raise IndexError
  else let* rs := mapM (fun r => take_idx r idx) (rows a) in
       Ok (Array2 (size idx) rs).

(** h5py [dset[idx, :]] on a 2-D dataset. *)
Definition h5_take_rows (a : array2) (idx : seq nat) : result array2 :=
  if ~~ h5_increasing idx then Raise TypeError
  else let* rs := take_idx (rows a) idx in
       Ok (Array2 (ncols a) rs).

(** numpy [a[idx, :]] and [a[:, idx]]. *)
Definition np_take_rows (a : array2) (idx : seq nat) : result array2 :=
  let* rs := take_idx (rows a) idx in Ok (Array2 (ncols a) rs).

Definition np_take_cols (a : array2) (idx : seq nat) : result array2 :=
  let* rs := mapM (fun r => take_idx r idx) (rows a) in
  Ok (Array2 (size idx) rs).

(** numpy [a.transpose()]. *)
Definition column (a : array2) (j : nat) : seq T :=
  pmap (fun r => onth r j) (rows a).

Definition transpose (a : array2) : array2 :=
  Array2 (size (rows a)) [seq column a j | j <- iota 0 (ncols a)].

End Arrays.

(** numpy [np.where(m)[0]] for a 1-D boolean array. *)
Definition np_where (m : bitseq) : seq nat := mask m (iota 0 (size m)).

(** [s[0]] *)
Definition getitem0 (s : seq nat) : result nat := getitem s 0.

Section Lookup.

Variable acn : eqType.

(** [arr == a], elementwise. *)
Definition np_eq (arr : seq acn) (a : acn) : bitseq := [seq x == a | x <- arr].

(** [a in arr] on a numpy array: [(arr == a).any()]. *)
Definition np_contains (arr : seq acn) (a : acn) : bool := has id (np_eq arr a).

(** [np.where(arr == a)[0][0]] *)
Definition where0 (arr : seq acn) (a : acn) : result nat :=
  getitem0 (np_where (np_eq arr a)).

End Lookup.

(** Python's [bisect.bisect] (= [bisect_right]): the binary search
    [while lo < hi: mid = (lo + hi) // 2; if x < a[mid]: hi = mid
     else: lo = mid + 1], started at [lo = 0], [hi = len(a)].  The loop runs
    at most [len(a)] times, which is the fuel given. *)
Fixpoint bisect_loop (fuel : nat) (a : seq nat) (x lo hi : nat) : nat :=
  if fuel is fuel'.+1 then
    if lo < hi then
      let mid := (lo + hi) %/ 2 in
      if x < nth 0 a mid then bisect_loop fuel' a x lo mid
      else bisect_loop fuel' a x mid.+1 hi
    else lo
  else lo.

Definition bisect (a : seq nat) (x : nat) : nat :=
  bisect_loop (size a) a x 0 (size a).

(** ** pandas frames and CSV files *)

Section Pandas.

Variable F : Type.

(** A value held by a frame: missing, an integer, a float or an object
    (a string that [read_csv] could not parse as a number). *)
Inductive cell : Type :=
  | NaN
  | Int of int
  | Num of F
  | Str of string.

Definition isna (c : cell) : bool := if c is NaN then true else false.

(** A frame: column names and rows, each row under its index label. *)
Record dataframe (L : Type) : Type :=
  DataFrame { columns : seq string; body : seq (L * seq cell) }.

Definition labels (L : Type) (df : dataframe L) : seq L :=
  [seq r.1 | r <- body df].

(** [df.index = df.index.map(f)] *)
Definition map_index (L L' : Type) (f : L -> L') (df : dataframe L) :
  dataframe L' :=
  DataFrame (columns df) [seq (f r.1, r.2) | r <- body df].

(** [df.dropna()]: drops the rows that hold a missing value. *)
Definition dropna (L : Type) (df : dataframe L) : dataframe L :=
  DataFrame (columns df) [seq r <- body df | ~~ has isna r.2].

(** [df.to_numpy()] *)
Definition to_numpy (L : Type) (df : dataframe L) : array2 cell :=
  Array2 (size (columns df)) [seq r.2 | r <- body df].

(** [df.loc[keys]]: for each key in turn the rows labelled with it; a key
    that labels no row is a [KeyError]. *)
Definition loc (L : eqType) (df : dataframe L) (keys : seq L) :
  result (dataframe L) :=
  if all (fun k => k \in labels df) keys then
    Ok (DataFrame (columns df)
          (flatten [seq [seq r <- body df | r.1 == k] | k <- keys]))
  else Raise KeyError.

(** [pd.DataFrame(rows, columns = names)] with the default range index. *)
Definition new_frame (names : seq string) (rs : seq (seq cell)) :
  dataframe nat :=
  DataFrame names (zip (iota 0 (size rs)) rs).

(** The content of a written CSV file. *)
Record csv : Type := Csv { header : seq string; records : seq (seq cell) }.

(** [df.to_csv(path, index = flag)]: with [index = True] the index labels
    are written as a first, unnamed column. *)
Definition csv_of_frame (df : dataframe nat) (index : bool) : csv :=
  if index then
    Csv (EmptyString :: columns df) [seq Int (Posz r.1) :: r.2 | r <- body df]
  else Csv (columns df) [seq r.2 | r <- body df].

(** The file store; the [io] monad threads it, and keeps what was written
    when an exception is raised. *)
Definition files : Type := seq (string * csv).

Definition io (A : Type) : Type := files -> files * result A.

Definition io_bind (A B : Type) (m : io A) (k : A -> io B) : io B :=
  fun fs => match m fs with
            | (fs', Ok a) => k a fs'
            | (fs', Raise e) => (fs', Raise e)
            end.

Definition lift (A : Type) (m : result A) : io A := fun fs => (fs, m).

Definition write_file (path : string) (f : csv) : io unit :=
  fun fs => ((path, f) :: [seq e <- fs | ~~ String.eqb e.1 path], Ok tt).

Definition to_csv (df : dataframe nat) (path : string) (index : bool) :
  io unit :=
  write_file path (csv_of_frame df index).

Definition read_file (fs : files) (path : string) : option csv :=
  if [seq e <- fs | String.eqb e.1 path] is e :: _ then Some e.2 else None.

End Pandas.

Arguments NaN {F}.
Arguments Int {F} _.
Arguments Str {F} _.
Arguments isna {F} c.

Notation "'do*' x ':=' m 'in' k" := (io_bind m (fun x => k))
  (at level 200, x name, m at level 100, k at level 200,
   right associativity,
   format "'[v' 'do*'  x  ':='  m  'in' '/' k ']'").

(** ** The notebook [2_GWAS.ipynb] *)

(** [limix]'s result object, as far as the notebook reads it:
    [r.stats.pv20] and the frame [r.effsizes['h2']] with its columns
    [effect_type] and [effsize]. *)
Inductive effect_type : Type := covariate | candidate.

Definition is_candidate (t : effect_type) : bool :=
  if t is candidate then true else false.

Record scan_result (F : Type) : Type :=
  ScanResult { pv20 : seq F; h2 : seq (effect_type * F) }.

(** The genotype file: the datasets [accessions], [positions] (with its
    attribute [chr_regions]) and [snps]; and the kinship file: the datasets
    [accessions] and [kinship]. *)
Record geno_hdf (acn : Type) : Type :=
  GenoHdf { accessions : seq acn;
            positions : seq int;
            chr_regions : seq (nat * nat);
            snps : array2 int }.

Record kin_hdf (acn F : Type) : Type :=
  KinHdf { kin_accessions : seq acn; kinship : array2 F }.

(** [G.sum(axis = 1)], row by row. *)
Definition sumz (r : seq int) : int := foldr (fun x s => (x + s)%R) 0%R r.

(** Section 1b: the two output paths. *)
Definition output_file : string :=
  "./results/subset_flowering_time_16_gwas.csv".
Definition output_file_nc : string :=
  "./results/subset_flowering_time_16_gwas_nc.csv".

Definition result_columns : seq string :=
  [:: "chr"; "pos"; "pvalue"; "maf"; "GVE"]%string.

Section Notebook.

(** The ecotype ids as [read_csv] parsed them, the accession identifiers
    (bytes) and [lambda x: str(int(x)).encode('UTF8')] between them. *)
Variable ident : Type.
Variable acn : eqType.
Variable encode : ident -> acn.

(** [float64]: [m / n] for integers [m], [n], and [>=]. *)
Variable F : Type.
Variable true_divide : int -> nat -> F.
Variable fge : F -> F -> bool.

(** Section 1b: [MAF_thrs] (0.05 in the notebook). *)
Variable MAF_thrs : F.

(** [limix.qtl.scan(G, Y, K = K, lik = 'normal', M = None)]; [K] is left
    out in the run without correction. *)
Variable scan :
  array2 int -> array2 (cell F) -> option (array2 F) -> result (scan_result F).

(** Section 2a: load the phenotypes. *)
Definition load_pheno (raw : dataframe F ident) : dataframe F acn :=
  let pheno := map_index encode raw in
  dropna pheno.

(** Section 3a: the phenotype matrix. *)
Record aligned : Type :=
  Aligned { pheno_aligned : dataframe F acn;
            geno_indices : seq nat;
            acn_order : seq acn;
            Y : array2 (cell F) }.

Definition acn_genotyped (pheno : dataframe F acn) (geno : geno_hdf acn) :
  seq acn :=
  [seq a <- labels pheno | np_contains (accessions geno) a].

Definition cell_3a (pheno : dataframe F acn) (geno : geno_hdf acn) :
  result aligned :=
  let* pheno := loc pheno (acn_genotyped pheno geno) in
  let* acn_indices := mapM (where0 (accessions geno)) (labels pheno) in
  let acn_indices := sort leq acn_indices in
  let* acn_order := h5_take (accessions geno) acn_indices in
  let* pheno := loc pheno acn_order in
  Ok (Aligned pheno acn_indices acn_order (to_numpy pheno)).

(** Section 3b: the genotype matrix and the allele frequency filter. *)
Definition MAC_of (G : array2 int) : seq int :=
  let AC1 := [seq sumz r | r <- rows G] in
  let AC0 := [seq ((ncols G)%:Z - a)%R | a <- AC1] in
  [seq Num.min p.1 p.2 | p <- zip AC0 AC1].

Definition MAF_of (G : array2 int) : seq F :=
  [seq true_divide m (ncols G) | m <- MAC_of G].

Record filtered : Type :=
  Filtered { MAF : seq F;
             SNP_indices : seq nat;
             SNPs_MAF : seq F;
             G : array2 int }.

(** First cell of 3b: the calls of the aligned accessions. *)
Definition cell_3b_subset (geno : geno_hdf acn) (acn_indices : seq nat) :
  result (array2 int) :=
  h5_take_cols (snps geno) acn_indices.

(** Second cell of 3b: the filter on minor allele frequency. *)
Definition cell_3b_filter (G : array2 int) : result filtered :=
  let MAF := MAF_of G in
  let SNP_indices := np_where [seq fge f MAF_thrs | f <- MAF] in
  let* SNPs_MAF := take_idx MAF SNP_indices in
  let* G := np_take_rows G SNP_indices in
  Ok (Filtered MAF SNP_indices SNPs_MAF (transpose G)).

Definition cell_3b (geno : geno_hdf acn) (acn_indices : seq nat) :
  result filtered :=
  let* G := cell_3b_subset geno acn_indices in
  cell_3b_filter G.

(** Section 3c: the kinship matrix, [kinship[idx, :][:, idx]]. *)
Definition kinship_subset (kinship : array2 F) (acn_indices : seq nat) :
  result (array2 F) :=
  let* K := h5_take_rows kinship acn_indices in
  np_take_cols K acn_indices.

Definition cell_3c (kin : kin_hdf acn F) (pheno : dataframe F acn) :
  result (array2 F) :=
  let* acn_indices := mapM (where0 (kin_accessions kin)) (labels pheno) in
  let acn_indices := sort leq acn_indices in
  kinship_subset (kinship kin) acn_indices.

(** Sections 5b and 5d: the result table. *)
Definition chromosome_of (chr_index : seq (nat * nat)) (snp_index : nat) :
  nat :=
  (bisect [seq c.2 | c <- chr_index] snp_index).+1.

Definition chromosomes_of (geno : geno_hdf acn) (SNP_indices : seq nat) :
  seq nat :=
  let chr_index := chr_regions geno in
  [seq chromosome_of chr_index snp_index | snp_index <- SNP_indices].

Definition positions_of (geno : geno_hdf acn) (SNP_indices : seq nat) :
  result (seq int) :=
  let positions_all := positions geno in
  mapM (fun snp => getitem positions_all snp) SNP_indices.

Definition effsizes_of (r : scan_result F) : seq F :=
  [seq e.2 | e <- h2 r & is_candidate e.1].

Definition result_row (t : nat * (int * (F * (F * F)))) : seq (cell F) :=
  let: (chr, (pos, (pvalue, (maf, effsize)))) := t in
  [:: Int (Posz chr); Int pos; Num pvalue; Num maf; Num effsize].

Definition gwas_results (geno : geno_hdf acn) (SNP_indices : seq nat)
    (SNPs_MAF : seq F) (r : scan_result F) : result (dataframe F nat) :=
  let chromosomes := chromosomes_of geno SNP_indices in
  let* positions := positions_of geno SNP_indices in
  let mafs := SNPs_MAF in
  let pvalues := pv20 r in
  let effsizes := effsizes_of r in
  Ok (new_frame result_columns
        [seq result_row t
        | t <- zip chromosomes (zip positions (zip pvalues (zip mafs effsizes)))]).

(** The three matrices handed to the runner. *)
Record prepared : Type :=
  Prepared { al : aligned; fl : filtered; K : array2 F }.

Definition prepare (pheno : dataframe F acn) (geno : geno_hdf acn)
    (kin : kin_hdf acn F) : result prepared :=
  let* a := cell_3a pheno geno in
  let* f := cell_3b geno (geno_indices a) in
  let* K := cell_3c kin (pheno_aligned a) in
  Ok (Prepared a f K).

(** The notebook, top to bottom. *)
Definition notebook (raw : dataframe F ident) (geno : geno_hdf acn)
    (kin : kin_hdf acn F) : io F unit :=
  let pheno := load_pheno raw in
  do* p := lift (prepare pheno geno kin) in
  do* r := lift (scan (G (fl p)) (Y (al p)) (Some (K p))) in
  do* gwas := lift (gwas_results geno (SNP_indices (fl p)) (SNPs_MAF (fl p)) r) in
  do* _ := to_csv gwas output_file false in
  do* r_nc := lift (scan (G (fl p)) (Y (al p)) None) in
  do* gwas_nc :=
    lift (gwas_results geno (SNP_indices (fl p)) (SNPs_MAF (fl p)) r_nc) in
  to_csv gwas_nc output_file_nc false.

End Notebook.

(** * Vocabulary of the statements *)

Section FrameVocabulary.

Variables (F : Type) (L : eqType).

(** The rows of a frame under one label. *)
Definition rows_at (df : dataframe F L) (k : L) : seq (L * seq (cell F)) :=
  [seq r <- body df | r.1 == k].

Definition blocks (df : dataframe F L) (ks : seq L) : dataframe F L :=
  DataFrame (columns df) (flatten [seq rows_at df k | k <- ks]).

End FrameVocabulary.

Section MatrixVocabulary.

Variable F : Type.

(** [a[i][j]] *)
Definition entry (a : array2 F) (i j : nat) : option F :=
  if onth (rows a) i is Some r then onth r j else None.

Definition symmetric (a : array2 F) : Prop :=
  forall i j, entry a i j = entry a j i.

Definition square (a : array2 F) : bool :=
  (size (rows a) == ncols a) && wf_array2 a.

End MatrixVocabulary.

Section NotebookVocabulary.

Variables (acn : eqType) (F : Type).

(** The genotyped accessions that are phenotyped, in genotype order. *)
Definition order_of (pheno : dataframe F acn) (geno : geno_hdf acn) :
  seq acn :=
  [seq a <- accessions geno | a \in labels pheno].

(** The kinship of two accessions as the kinship file records it. *)
Definition kin_at (kin : kin_hdf acn F) (a b : acn) : option F :=
  entry (kinship kin) (index a (kin_accessions kin))
    (index b (kin_accessions kin)).

(** Column [j] of a written file, record by record. *)
Definition csv_column (f : csv F) (j : nat) : seq (option (cell F)) :=
  [seq onth rec j | rec <- records f].

(** What a result file holds for the retained SNPs [idx], their
    frequencies [mafs] and a runner result [r]: the five named columns and
    nothing else, a record per retained SNP, in the order of [idx]. *)
Definition holds_results (f : csv F) (geno : geno_hdf acn) (idx : seq nat)
    (mafs : seq F) (r : scan_result F) : Prop :=
  [/\ header f = [:: "chr"; "pos"; "pvalue"; "maf"; "GVE"]%string,
      all (fun rec => size rec == 5) (records f),
      csv_column f 0 =
        [seq Some (Int (Posz (chromosome_of (chr_regions geno) i))) | i <- idx],
      csv_column f 1 = [seq omap (@Int F) (onth (positions geno) i) | i <- idx]
    & [/\ csv_column f 2 = [seq Some (Num x) | x <- pv20 r],
          csv_column f 3 = [seq Some (Num x) | x <- mafs]
        & csv_column f 4 = [seq Some (Num x) | x <- effsizes_of r]]].

End NotebookVocabulary.

Section BisectVocabulary.

Variables (a : seq nat) (x : nat).

(** Everything left of [lo] is [<= x]; everything from [hi] on is [> x]. *)
Definition below (lo : nat) : Prop := forall i, i < lo -> nth 0 a i <= x.
Definition above (hi : nat) : Prop :=
  forall i, hi <= i -> i < size a -> x < nth 0 a i.

End BisectVocabulary.

(** The boundary table [[0,10],[10,25],[25,40]]. *)
Definition three_chromosomes : seq (nat * nat) :=
  [:: (0, 10); (10, 25); (25, 40)].

(** The lookup as the specification words it: the smallest 1-indexed [c]
    with [snp_index <= boundary[c]], [boundary[c]] being the upper end of
    chromosome [c]. *)
Definition spec_chromosome (chr_index : seq (nat * nat)) (snp_index : nat) :
  nat :=
  (find (fun e => snp_index <= e) [seq c.2 | c <- chr_index]).+1.

(** A row of calls that are all 0 or 1. *)
Definition binary (r : seq int) : bool :=
  all (fun v : int => (v == 0) || (v == 1))%R r.

(** The number of calls 1 in a row. *)
Definition ones (r : seq int) : nat := count (pred1 (1%R : int)) r.

(** The frequency of a binary row with [N] calls. *)
Definition maf_of_row (F : Type) (true_divide : int -> nat -> F) (N : nat)
    (r : seq int) : F :=
  true_divide (Posz (minn (ones r) (N - ones r))) N.

Section AlignmentVocabulary.

Variables (acn : eqType) (F : Type).

(** The phenotyped accessions that are genotyped, in phenotype order and
    with their repetitions. *)
Definition genotyped_of (pheno : dataframe F acn) (geno : geno_hdf acn) :
  seq acn :=
  [seq a <- labels pheno | a \in accessions geno].

(** The accession order of section 3a when no genotyped accession is
    phenotyped twice: the accessions found at the sorted first positions
    of the genotyped phenotype labels. *)
Definition sorted_indices (pheno : dataframe F acn) (geno : geno_hdf acn) :
  seq nat :=
  sort leq [seq index a (accessions geno) | a <- genotyped_of pheno geno].

Definition sorted_order (pheno : dataframe F acn) (geno : geno_hdf acn) :
  seq acn :=
  pmap (onth (accessions geno)) (sorted_indices pheno geno).

End AlignmentVocabulary.

(** A call matrix with the two alleles exchanged: [1 - v] for each call. *)
Definition flip_row (r : seq int) : seq int := [seq (1 - v)%R | v <- r].

Definition flip (a : array2 int) : array2 int :=
  Array2 (ncols a) [seq flip_row r | r <- rows a].

(** ** The association runner *)

Section Runner.

Variable F : Type.

Definition runner : Type :=
  array2 int -> array2 (cell F) -> option (array2 F) -> result (scan_result F).

(** Modelled from the spec: the association runner [limix.qtl.scan] is a
    third-party library, absent from the repository.  The specification
    states that the association step cannot run on an empty genotype matrix
    and that its failures abort the pipeline: a matrix without rows
    (accessions) or without columns (SNPs) makes the runner raise. *)
Definition rejects_empty (scan : runner) : Prop :=
  forall G Y K, nilp (rows G) || (ncols G == 0) ->
  exists e, scan G Y K = Raise e.

(** The runner's output contract: one p-value and one candidate effect
    size for each SNP (column of [G]). *)
Definition one_test_per_snp (scan : runner) : Prop :=
  forall G Y K r, scan G Y K = Ok r ->
  size (pv20 r) = ncols G /\ size (effsizes_of r) = ncols G.

End Runner.

(** ** A small run: four phenotyped accessions, four genotyped ones

    Accessions are numbered; floats are exact rationals here. *)

Module Demo.

Local Open Scope ring_scope.

Definition true_divide (m : int) (n : nat) : rat := m%:~R / n%:R.
Definition fge (x y : rat) : bool := y <= x.
Definition MAF_thrs : rat := 5%:R / 100%:R.

(** Phenotypes of the accessions 4, 2, 3, 1 (in file order). *)
Definition pheno : dataframe rat nat :=
  DataFrame [:: "FT16"%string]
    [:: (4%N, [:: Num (61%:R : rat)]); (2%N, [:: Num 57%:R]);
        (3%N, [:: Num 88%:R]); (1%N, [:: Num 70%:R])].

(** Genotypes of the accessions 2, 3, 4, 5: four SNPs on two chromosomes. *)
Definition geno : geno_hdf nat :=
  GenoHdf [:: 2%N; 3%N; 4%N; 5%N]
    [:: 117; 342; 96; 508]
    [:: (0%N, 2%N); (2%N, 4%N)]
    (Array2 4 [:: [:: 0; 1; 0; 1];
                  [:: 1; 1; 1; 0];
                  [:: 0; 0; 0; 1];
                  [:: 1; 0; 1; 1]]).

End Demo.

Module DemoFilter.

(** The calls of the accessions 2, 3 and 4 in [Demo.geno]. *)
Definition G0 : array2 int :=
  Array2 3 [:: [:: 0; 1; 0]; [:: 1; 1; 1]; [:: 0; 0; 0]; [:: 1; 0; 1]]%R.

End DemoFilter.

Module DemoLoader.

Local Open Scope ring_scope.

(** A phenotype file with a missing value for accession 3 and the text
    [late] in place of a number for accession 2. *)
Definition raw : dataframe rat nat :=
  DataFrame [:: "FT16"%string]
    [:: (4%N, [:: Num (61%:R : rat)]); (2%N, [:: Str "late"%string]);
        (3%N, [:: NaN]); (1%N, [:: Num 70%:R])].

End DemoLoader.

Module DemoKinship.

Local Open Scope ring_scope.

(** Kinship of the accessions 1 .. 5, listed in genotype order with
    accession 1 first. *)
Definition kin : kin_hdf nat rat :=
  KinHdf [:: 1%N; 2%N; 3%N; 4%N; 5%N]
    (Array2 5 [:: [:: 11; 12; 13; 14; 15];
                  [:: 12; 22; 23; 24; 25];
                  [:: 13; 23; 33; 34; 35];
                  [:: 14; 24; 34; 44; 45];
                  [:: 15; 25; 35; 45; 55]]).

(** The same kinship values, the accessions listed in the order
    5, 4, 3, 2, 1. *)
Definition kin_reversed : kin_hdf nat rat :=
  KinHdf [:: 5%N; 4%N; 3%N; 2%N; 1%N]
    (Array2 5 [:: [:: 55; 45; 35; 25; 15];
                  [:: 45; 44; 34; 24; 14];
                  [:: 35; 34; 33; 23; 13];
                  [:: 25; 24; 23; 22; 12];
                  [:: 15; 14; 13; 12; 11]]).

End DemoKinship.

Module DemoRun.

Local Open Scope ring_scope.

(** The phenotype file of [Demo.pheno] as [read_csv] returns it, with one
    more accession whose trait value is missing. *)
Definition raw : dataframe rat nat :=
  DataFrame [:: "FT16"%string]
    [:: (4%N, [:: Num (61%:R : rat)]); (2%N, [:: Num 57%:R]);
        (6%N, [:: NaN]);
        (3%N, [:: Num 88%:R]); (1%N, [:: Num 70%:R])].

(** A phenotype file whose accessions are not genotyped. *)
Definition raw_apart : dataframe rat nat :=
  DataFrame [:: "FT16"%string]
    [:: (7%N, [:: Num (61%:R : rat)]); (8%N, [:: Num 57%:R])].

(** A runner that refuses an empty genotype matrix and otherwise reports,
    for each SNP, an intercept and a candidate effect. *)
Definition scan : runner rat :=
  fun G Y K =>
    if nilp (rows G) || (ncols G == 0%N) then Raise RunnerError
    else
      let pv : rat := if K is Some _ then 1 / 4%:R else 1 / 100%:R in
      Ok (ScanResult (nseq (ncols G) pv)
            (flatten (nseq (ncols G)
               [:: (covariate, 70%:R); (candidate, 3%:R / 2%:R)]))).

(** A threshold that no frequency reaches. *)
Definition high_thrs : rat := 60%:R / 100%:R.

Definition run (thrs : rat) (raw : dataframe rat nat) :
  files rat * result unit :=
  notebook id Demo.true_divide Demo.fge thrs scan raw Demo.geno
    DemoKinship.kin [::].

End DemoRun.

Module DemoOrder.

Local Open Scope ring_scope.

(** The rows of [Demo.pheno] in another order. *)
Definition pheno_shuffled : dataframe rat nat :=
  DataFrame [:: "FT16"%string]
    [:: (1%N, [:: Num (70%:R : rat)]); (3%N, [:: Num 88%:R]);
        (4%N, [:: Num 61%:R]); (2%N, [:: Num 57%:R])].

End DemoOrder.

Module DemoMissing.

Local Open Scope ring_scope.

(** A kinship file that does not list accession 4. *)
Definition kin : kin_hdf nat rat :=
  KinHdf [:: 1%N; 2%N; 3%N]
    (Array2 3 [:: [:: 11; 12; 13];
                  [:: 12; 22; 23];
                  [:: 13; 23; 33]]).

(** A runner that fails when it is given no kinship matrix. *)
Definition scan_needs_K : runner rat :=
  fun G Y K => if K is Some _ then DemoRun.scan G Y K else Raise RunnerError.

(** A file store that holds a file of its own. *)
Definition notes_file : string := "./results/notes.csv".

Definition notes : files rat :=
  [:: (notes_file, Csv [:: "note"%string] [::])].

End DemoMissing.

(** The files written by the demo run at the threshold 0.05. *)
Definition demo_files : files rat :=
  (DemoRun.run Demo.MAF_thrs DemoRun.raw).1.

(** * Properties *)

(** ** Sequencing and indexing *)

Section IndexingFacts.

Variables (A B : Type).

Lemma mapM_map_ok (f : A -> result B) (g : A -> B) (P : pred A) (s : seq A) :
  (forall x, P x -> f x = Ok (g x)) -> all P s -> mapM f s = Ok (map g s).
Proof.
move=> fg; elim: s => [|x s IHs] //= /andP[Px Ps].
by rewrite (fg _ Px) /= (IHs Ps).
Qed.

Lemma mapM_size (f : A -> result B) (s : seq A) (t : seq B) :
  mapM f s = Ok t -> size t = size s.
Proof.
elim: s t => [|x s IHs] t /=; first by case=> <-.
case: (f x) => //= b; case E: (mapM f s) => [bs|] //= [<-] /=.
by rewrite (IHs _ E).
Qed.

Lemma onth_nth (x0 : A) (s : seq A) (i : nat) :
  i < size s -> onth s i = Some (nth x0 s i).
Proof. by move=> lt_i; rewrite /onth (nth_map x0). Qed.

Lemma onth_default (s : seq A) (i : nat) : size s <= i -> onth s i = None.
Proof. by move=> le_i; rewrite /onth nth_default // size_map. Qed.

Lemma onth_size (s : seq A) (i : nat) (x : A) : onth s i = Some x -> i < size s.
Proof.
by case: (ltnP i (size s)) => // le_i; rewrite onth_default.
Qed.

Lemma getitem_nth (x0 : A) (s : seq A) (i : nat) :
  i < size s -> getitem s i = Ok (nth x0 s i).
Proof. by move=> lt_i; rewrite /getitem (onth_nth x0). Qed.

End IndexingFacts.

Section TakeFacts.

Variable A : Type.

Lemma take_idx_nth (x0 : A) (s : seq A) (idx : seq nat) :
  all (fun i => i < size s) idx ->
  take_idx s idx = Ok [seq nth x0 s i | i <- idx].
Proof.
apply: (@mapM_map_ok _ _ _ (nth x0 s) (fun i => i < size s)) => i.
exact: getitem_nth.
Qed.

Lemma take_idx_onth (s t : seq A) (idx : seq nat) :
  take_idx s idx = Ok t -> [seq Some x | x <- t] = [seq onth s i | i <- idx].
Proof.
rewrite /take_idx; elim: idx t => [|i idx IHi] t /=; first by case=> <-.
rewrite /getitem; case E: (onth s i) => [x|] //=.
by case E': (mapM _ idx) => [u|] //= [<-] /=; rewrite (IHi _ E').
Qed.

End TakeFacts.

Section WhereFacts.

Lemma np_whereE (m : bitseq) :
  np_where m = [seq i <- iota 0 (size m) | nth false m i].
Proof.
rewrite /np_where filter_mask; congr (mask _ _).
by apply: (@eq_from_nth _ false) => [|i lt_i];
  rewrite ?size_map ?size_iota // (nth_map 0) ?size_iota // nth_iota.
Qed.

Lemma mem_np_where (m : bitseq) (i : nat) :
  (i \in np_where m) = (i < size m) && nth false m i.
Proof. by rewrite np_whereE mem_filter mem_iota /= add0n andbC. Qed.

Lemma np_where_sorted (m : bitseq) : sorted ltn (np_where m).
Proof.
rewrite np_whereE; apply: sorted_filter; first exact: ltn_trans.
exact: iota_ltn_sorted.
Qed.

Lemma np_where_bound (m : bitseq) : all (fun i => i < size m) (np_where m).
Proof. by apply/allP => i; rewrite mem_np_where => /andP[]. Qed.

Lemma size_np_where (m : bitseq) : size (np_where m) = count id m.
Proof. by rewrite /np_where size_mask ?size_iota. Qed.

Variable acn : eqType.

Lemma np_containsE (arr : seq acn) (a : acn) : np_contains arr a = (a \in arr).
Proof.
rewrite /np_contains /np_eq has_map; apply/hasP/idP => [[x x_arr /= /eqP<-] //|].
by move=> a_arr; exists a => //=.
Qed.

Lemma where0_shift (arr : seq acn) (a : acn) (k : nat) :
  getitem (mask (np_eq arr a) (iota k (size arr))) 0 =
  if a \in arr then Ok (k + index a arr) else Raise IndexError.
Proof.
elim: arr k => [|x arr IHa] k //=.
rewrite in_cons [a == x]eq_sym; case: eqP => [_|_] /=.
  by rewrite addn0.
by rewrite IHa addSnnS.
Qed.

Lemma where0E (arr : seq acn) (a : acn) :
  where0 arr a = if a \in arr then Ok (index a arr) else Raise IndexError.
Proof. by rewrite /where0 /getitem0 /np_where size_map where0_shift. Qed.

Lemma getitem_index (arr : seq acn) (a : acn) :
  a \in arr -> getitem arr (index a arr) = Ok a.
Proof. by move=> a_arr; rewrite (getitem_nth a) ?index_mem // nth_index. Qed.

Lemma map_index_iota (s : seq acn) :
  uniq s -> [seq index a s | a <- s] = iota 0 (size s).
Proof.
move=> Us; case: s Us => [|a0 s'] // Us.
apply: (@eq_from_nth _ 0) => [|i]; rewrite size_map ?size_iota // => lt_i.
by rewrite (nth_map a0) // nth_iota // add0n index_uniq.
Qed.

Lemma index_sorted_filter (s : seq acn) (p : pred acn) :
  uniq s -> sorted ltn [seq index a s | a <- s & p a].
Proof.
move=> Us; rewrite sorted_map; apply: sorted_filter.
  by move=> y x z /=; apply: ltn_trans.
by rewrite -sorted_map map_index_iota // iota_ltn_sorted.
Qed.

End WhereFacts.

(** ** Frames: [loc] on unique labels *)

Section FrameFacts.

Variables (F : Type) (L : eqType).
Implicit Types (df : dataframe F L) (k : L) (ks : seq L).

Lemma locE df ks :
  all (fun k => k \in labels df) ks -> loc df ks = Ok (blocks df ks).
Proof. by rewrite /loc => ->. Qed.

Lemma labels_rows_at df k :
  [seq r.1 | r <- rows_at df k] = [seq l <- labels df | l == k].
Proof. by rewrite /rows_at /labels filter_map. Qed.

Lemma labels_blocks df ks :
  uniq (labels df) -> all (fun k => k \in labels df) ks ->
  labels (blocks df ks) = ks.
Proof.
move=> Udf; rewrite /labels /blocks /=.
elim: ks => [|k ks IHk] //= /andP[k_df ks_df].
rewrite map_cat IHk // labels_rows_at.
have -> : [seq l <- labels df | l == k] = [:: k].
  by rewrite (eq_filter (a2 := pred1 k)) ?filter_pred1_uniq.
by [].
Qed.

Lemma rows_at_rows_at df k' k :
  [seq r <- rows_at df k' | r.1 == k] = if k' == k then rows_at df k else [::].
Proof.
rewrite /rows_at -filter_predI; case: eqP => [->|ne_k].
  by apply: eq_filter => r /=; rewrite andbb.
rewrite -(filter_pred0 (body df)); apply: eq_filter => r /=.
by apply/negP => /andP[/eqP rk /eqP rk']; apply: ne_k; rewrite -rk' -rk.
Qed.

Lemma rows_at_blocks_out df ks k :
  k \notin ks -> rows_at (blocks df ks) k = [::].
Proof.
rewrite /rows_at /blocks /=; elim: ks => [|k' ks IHk] //=.
rewrite in_cons negb_or filter_cat => /andP[ne_k k_ks].
by rewrite IHk // cats0 rows_at_rows_at eq_sym (negPf ne_k).
Qed.

Lemma rows_at_blocks df ks k :
  uniq ks -> k \in ks -> rows_at (blocks df ks) k = rows_at df k.
Proof.
elim: ks => [|k' ks IHk] //=; rewrite in_cons => /andP[k'_ks Uks].
rewrite {1}/rows_at /blocks /= filter_cat rows_at_rows_at eq_sym.
case: eqP => [k_k'|_] /= => [_|k_ks]; last exact: IHk.
rewrite k_k' in k'_ks.
by move: (rows_at_blocks_out df k'_ks); rewrite /rows_at /blocks /= => ->; rewrite cats0.
Qed.

End FrameFacts.

(** ** Section 3a: the accession order *)

Section AlignFacts.

Variables (acn : eqType) (F : Type).
Implicit Types (pheno : dataframe F acn) (geno : geno_hdf acn).

Lemma take_idx_index (arr s : seq acn) :
  all (fun a => a \in arr) s -> take_idx arr [seq index a arr | a <- s] = Ok s.
Proof.
rewrite /take_idx; elim: s => [|a s IHs] //= /andP[a_arr s_arr].
by rewrite getitem_index //= IHs.
Qed.

Lemma acn_genotypedE pheno geno :
  acn_genotyped pheno geno =
  [seq a <- labels pheno | a \in accessions geno].
Proof. by apply: eq_filter => a; rewrite np_containsE. Qed.

(** The sorted indices list the common accessions in genotype order. *)
Lemma sort_index_filter (P G0 : seq acn) :
  uniq P -> uniq G0 ->
  sort leq [seq index a G0 | a <- P & a \in G0] =
  [seq index a G0 | a <- G0 & a \in P].
Proof.
move=> UP UG; apply: (irr_sorted_eq ltn_trans ltnn).
- rewrite ltn_sorted_uniq_leq sort_uniq (sort_sorted leq_total) andbT.
  rewrite map_inj_in_uniq ?filter_uniq // => a b.
  rewrite !mem_filter => /andP[a_G _] /andP[b_G _] eq_ab.
  by rewrite -(nth_index a a_G) eq_ab nth_index.
- exact: index_sorted_filter.
move=> i; rewrite mem_sort; apply/mapP/mapP => -[a];
  by rewrite mem_filter => /andP[a1 a2] ->; exists a; rewrite // mem_filter a1 a2.
Qed.

Lemma cell_3aE pheno geno :
  uniq (labels pheno) -> uniq (accessions geno) ->
  let order := order_of pheno geno in
  let pheno' := blocks pheno order in
  cell_3a pheno geno =
  Ok (Aligned pheno' [seq index a (accessions geno) | a <- order] order
        (to_numpy pheno')).
Proof.
move=> UP UG order pheno'; rewrite /cell_3a acn_genotypedE.
set P1 := [seq a <- labels pheno | a \in accessions geno].
have P1_P : all (fun k => k \in labels pheno) P1.
  by apply/allP => a; rewrite mem_filter => /andP[].
have UP1 : uniq P1 by rewrite filter_uniq.
rewrite locE //= labels_blocks //.
have -> /= : mapM (where0 (accessions geno)) P1 =
              Ok [seq index a (accessions geno) | a <- P1].
  apply: (@mapM_map_ok _ _ _ _ (fun a => a \in accessions geno)) => [a a_G|].
    by rewrite where0E a_G.
  by apply/allP => a; rewrite mem_filter => /andP[].
rewrite sort_index_filter // /h5_take /h5_increasing index_sorted_filter //.
have order_G : all (fun a => a \in accessions geno) order.
  by apply/allP => a; rewrite mem_filter => /andP[].
rewrite -/(order_of pheno geno) -/order (take_idx_index order_G) /=.
have order_P1 : all (fun k => k \in P1) order.
  by apply/allP => a; rewrite !mem_filter andbC.
rewrite locE /= ?labels_blocks //; congr (Ok _).
have -> : blocks (blocks pheno P1) order = pheno'.
  rewrite /pheno' /blocks /=; congr (DataFrame _ (flatten _)).
  by apply/eq_in_map => k k_ord; rewrite rows_at_blocks // (allP order_P1).
by [].
Qed.

End AlignFacts.

Section AlignTheorems.

Variables (acn : eqType) (F : Type).
Implicit Types (pheno : dataframe F acn) (geno : geno_hdf acn).

(** C4. For a phenotype table without repeated accessions and a genotype
    accession list without repetitions, section 3a succeeds and its
    [acn_order] is the genotype accession list restricted to the phenotyped
    accessions, in genotype order: its members are exactly the accessions
    present in both, there are as many as the phenotyped accessions that
    are genotyped, and each occurs once. *)
Theorem acn_order_spec pheno geno :
  uniq (labels pheno) -> uniq (accessions geno) ->
  exists2 a, cell_3a pheno geno = Ok a &
  [/\ acn_order a = [seq x <- accessions geno | x \in labels pheno],
      forall x, (x \in acn_order a) =
                (x \in labels pheno) && (x \in accessions geno),
      size (acn_order a) = size [seq x <- labels pheno | x \in accessions geno],
      uniq (acn_order a)
    & forall x, x \in acn_order a -> count_mem x (acn_order a) = 1].
Proof.
move=> UP UG; rewrite cell_3aE //; eexists; first by [].
rewrite /= /order_of.
have Uo : uniq [seq x <- accessions geno | x \in labels pheno].
  by rewrite filter_uniq.
split=> //.
- by move=> x; rewrite mem_filter.
- apply/eqP; rewrite -uniq_size_uniq ?filter_uniq // => x.
  by rewrite !mem_filter andbC.
by move=> x x_o; rewrite count_uniq_mem // x_o.
Qed.

End AlignTheorems.

Lemma acn_order_spec_demo :
  [/\ uniq (labels Demo.pheno), uniq (accessions Demo.geno)
    & exists2 a, cell_3a Demo.pheno Demo.geno = Ok a &
        acn_order a = [:: 2; 3; 4]].
Proof.
split=> //.
have [a E [o _ _ _ _]] :=
  @acn_order_spec _ _ Demo.pheno Demo.geno isT isT.
by exists a; rewrite ?o.
Defined.

(** ** [bisect]: the binary search on a sorted array *)

Section BisectFacts.

Variables (a : seq nat) (x : nat).
Hypothesis a_sorted : sorted leq a.

Lemma mid_bounds (lo hi : nat) : lo < hi -> lo <= (lo + hi) %/ 2 < hi.
Proof.
move=> lt_lh; rewrite divn2 geq_half_double ltn_half_double -!addnn.
by rewrite leq_add2l ltn_add2r lt_lh (ltnW lt_lh).
Qed.

Lemma a_mono (i j : nat) : i <= j -> j < size a -> nth 0 a i <= nth 0 a j.
Proof.
move=> le_ij lt_j.
have lt_i : i < size a by exact: leq_ltn_trans lt_j.
exact: (sorted_leq_nth leq_trans leqnn 0 a_sorted).
Qed.

Lemma bisect_loop_inv (fuel lo hi : nat) :
  lo <= hi -> hi <= size a -> hi - lo <= fuel -> below a x lo -> above a x hi ->
  let r := bisect_loop fuel a x lo hi in [/\ below a x r, above a x r & r <= size a].
Proof.
elim: fuel lo hi => [|fuel IHf] lo hi le_lh le_hn /=.
  rewrite leqn0 subn_eq0 => le_hl bel abv.
  have eq_lh : hi = lo by apply/eqP; rewrite eqn_leq le_hl.
  by split=> //; rewrite -?eq_lh.
move=> le_fuel bel abv; case: ltnP => [lt_lh|le_hl]; last first.
  have eq_lh : hi = lo by apply/eqP; rewrite eqn_leq le_hl.
  by split=> //; rewrite -?eq_lh.
have /andP[le_lm lt_mh] := mid_bounds lt_lh.
set mid := (lo + hi) %/ 2 in le_lm lt_mh *.
have lt_mn : mid < size a by exact: leq_trans lt_mh le_hn.
case: ltnP => [lt_x|le_x].
- apply: IHf => //; first exact: ltnW.
  + rewrite -ltnS; apply: leq_trans le_fuel.
    by rewrite ltn_sub2r.
  + move=> i le_mi lt_i; apply: leq_trans lt_x _.
    exact: a_mono.
- apply: IHf => //.
  + rewrite -ltnS; apply: leq_trans le_fuel.
    by rewrite ltn_sub2l.
  + move=> i; rewrite ltnS => le_im; apply: leq_trans le_x.
    exact: a_mono.
Qed.

Lemma bisect_find : bisect a x = find (fun e => x < e) a.
Proof.
have [] := @bisect_loop_inv (size a) 0 (size a) (leq0n _) (leqnn _).
- by rewrite subn0.
- by [].
- by move=> i le_i lt_i; move: (leq_ltn_trans le_i lt_i); rewrite ltnn.
rewrite -/(bisect a x); set r := bisect a x => bel abv le_r.
set p := fun e => x < e.
case: (ltngtP (find p a) r) => // [lt_fr|lt_rf].
- have has_p : has p a by rewrite has_find (leq_trans lt_fr).
  by move: (nth_find 0 has_p); rewrite /p ltnNge bel.
- have lt_rn : r < size a by exact: leq_trans lt_rf (find_size _ _).
  by move: (before_find 0 lt_rf); rewrite /p abv.
Qed.

End BisectFacts.

(** ** Sections 5b and 5d: the chromosome of a SNP *)

(** C2, as the code has it. With upper ends in non-decreasing order and a
    SNP index below the last of them, the reported chromosome [c] is the
    smallest 1-indexed one whose upper end is strictly above the index:
    [index < boundary[c]], and [boundary[c'] <= index] for every earlier
    chromosome [c'] (upper ends are exclusive).  On the table
    [[0,10],[10,25],[25,40]] the indices 12, 0 and 39 map to the
    chromosomes 2, 1 and 3. *)
Theorem chromosome_of_spec (chr_index : seq (nat * nat)) (snp_index : nat) :
  let ends := [seq c.2 | c <- chr_index] in
  sorted leq ends -> has (fun e => snp_index < e) ends ->
  let c := chromosome_of chr_index snp_index in
  [/\ 0 < c <= size ends,
      snp_index < nth 0 ends c.-1,
      forall c', 0 < c' < c -> nth 0 ends c'.-1 <= snp_index
    & [seq chromosome_of three_chromosomes i | i <- [:: 12; 0; 39]] =
      [:: 2; 1; 3]].
Proof.
move=> ends ends_sorted has_end c.
have cE : c = (find (fun e => snp_index < e) ends).+1.
  by rewrite /c /chromosome_of bisect_find.
split=> //.
- by rewrite cE /= -has_find.
- by rewrite cE /=; apply: (nth_find 0 has_end).
- case=> [|c'] //=; rewrite cE ltnS => lt_c'.
  by rewrite leqNgt (before_find 0 lt_c').
Qed.

Lemma chromosome_of_spec_demo :
  [/\ sorted leq [seq c.2 | c <- three_chromosomes],
      has (fun e => 12 < e) [seq c.2 | c <- three_chromosomes],
      chromosome_of three_chromosomes 12 = 2
    & 12 < nth 0 [seq c.2 | c <- three_chromosomes] 1].
Proof.
have [] := @chromosome_of_spec three_chromosomes 12 isT isT.
by move=> _ lt_12 _ _; split.
Defined.

(** At a SNP index equal to an upper end the two readings part: index 10
    lies in chromosome 2 (which starts there), while chromosome 1 is the
    first whose upper end is [>= 10]. *)
Lemma chromosome_of_upper_end :
  [/\ chromosome_of three_chromosomes 10 = 2,
      spec_chromosome three_chromosomes 10 = 1
    & chromosome_of three_chromosomes 10 <>
      spec_chromosome three_chromosomes 10].
Proof. by []. Qed.

(** ** Section 3b: allele counts and the frequency filter *)

Section CountFacts.

Local Open Scope ring_scope.

Lemma sumz_binary (r : seq int) : binary r -> sumz r = (ones r)%:Z.
Proof.
elim: r => [|v r IHr] //= /andP[/orP[] /eqP-> /IHr->] /=.
  by rewrite add0r add0n.
by rewrite -PoszD.
Qed.

Lemma ones_size (r : seq int) : (ones r <= size r)%N.
Proof. exact: count_size. Qed.

Lemma ones_all0 (r : seq int) : all (pred1 (0 : int)) r -> ones r = 0%N.
Proof.
move=> r0; apply/eqP; rewrite -leqn0 leqNgt -has_count; apply/hasPn => v.
by move/(allP r0) => /= /eqP->.
Qed.

Lemma ones_all1 (r : seq int) : all (pred1 (1 : int)) r -> ones r = size r.
Proof. by move=> r1; apply/eqP; rewrite -all_count. Qed.

Lemma minz_nat (m n : nat) : Num.min (m%:Z) (n%:Z) = (minn m n)%:Z.
Proof. by rewrite /Order.min ltz_nat /minn; case: ifP. Qed.

(** The minor allele count of a binary row of [N] calls. *)
Lemma MAC_binary (N : nat) (r : seq int) :
  binary r -> size r = N ->
  Num.min (N%:Z - sumz r) (sumz r) = (minn (ones r) (N - ones r))%:Z.
Proof.
move=> bin_r <-; rewrite sumz_binary // subzn ?ones_size // minz_nat.
by rewrite minnC.
Qed.

End CountFacts.

Section FilterFacts.

Variables (F : Type) (true_divide : int -> nat -> F).
Variables (fge : F -> F -> bool) (MAF_thrs : F).

Lemma take_idx_where (T : Type) (s : seq T) (m : bitseq) :
  size m = size s -> take_idx s (np_where m) = Ok (mask m s).
Proof.
case: s => [|x0 s'] sz_m; first by case: m sz_m.
rewrite (take_idx_nth x0) -?sz_m ?np_where_bound // /np_where map_mask.
by rewrite sz_m map_nth_iota0 // take_size.
Qed.

Lemma zip_mask (S T : Type) (m : bitseq) (s : seq S) (t : seq T) :
  zip (mask m s) (mask m t) = mask m (zip s t).
Proof.
elim: m s t => [|b m IHm] [|x s] [|y t] //=; last by case: b => /=; rewrite IHm.
- by case: b => //=; case: (mask m t).
- by case: b => //=; case: (mask m s).
Qed.

Lemma size_MAF_of (G0 : array2 int) :
  size (MAF_of true_divide G0) = size (rows G0).
Proof. by rewrite /MAF_of /MAC_of !size_map size_zip !size_map minnn. Qed.

Lemma MAF_of_binary (G0 : array2 int) :
  wf_array2 G0 -> all binary (rows G0) ->
  MAF_of true_divide G0 = [seq maf_of_row true_divide (ncols G0) r | r <- rows G0].
Proof.
move=> wfG binG; rewrite /MAF_of /MAC_of -!map_comp zip_map -map_comp.
apply/eq_in_map => r r_G /=; rewrite /maf_of_row.
by rewrite MAC_binary ?(allP binG) //; apply/eqP/(allP wfG).
Qed.

Lemma cell_3b_filterE (G0 : array2 int) :
  let MAF := MAF_of true_divide G0 in
  let m := [seq fge f MAF_thrs | f <- MAF] in
  cell_3b_filter true_divide fge MAF_thrs G0 =
  Ok (Filtered MAF (np_where m) (mask m MAF)
        (transpose (Array2 (ncols G0) (mask m (rows G0))))).
Proof.
move=> MAF m; rewrite /cell_3b_filter -/MAF -/m.
rewrite take_idx_where ?size_map //= /np_take_rows.
by rewrite take_idx_where // size_map /MAF size_MAF_of.
Qed.

End FilterFacts.

Section FilterTheorems.

Variables (F : Type) (true_divide : int -> nat -> F).
Variables (fge : F -> F -> bool) (MAF_thrs : F).

(** C3. On a binary SNP x accession matrix with [N] columns the filter
    cell succeeds, and: the frequency of a row with [k] ones is
    [min(k, N - k) / N]; a row of zeros and a row of ones both get [0 / N];
    the retained SNP indices, paired with the frequencies handed on, are
    exactly the pairs (index, frequency) of the input with
    [frequency >= MAF_thrs], in input order; the retained indices increase;
    and the matrix handed on is the transpose of the retained rows, in
    input order. *)
Theorem maf_filter_spec (G0 : array2 int) :
  wf_array2 G0 -> all binary (rows G0) ->
  exists2 f, cell_3b_filter true_divide fge MAF_thrs G0 = Ok f &
  [/\ MAF f = [seq maf_of_row true_divide (ncols G0) r | r <- rows G0],
      forall r, size r = ncols G0 ->
        all (pred1 (0 : int)) r || all (pred1 (1 : int)) r ->
        maf_of_row true_divide (ncols G0) r = true_divide 0 (ncols G0),
      zip (SNP_indices f) (SNPs_MAF f) =
        [seq p <- zip (iota 0 (size (rows G0))) (MAF f) | fge p.2 MAF_thrs],
      sorted ltn (SNP_indices f)
    & G f = transpose (Array2 (ncols G0)
              [seq r <- rows G0
              | fge (maf_of_row true_divide (ncols G0) r) MAF_thrs])].
Proof.
move=> wfG binG; rewrite cell_3b_filterE; eexists; first by [].
rewrite /= (MAF_of_binary _ wfG binG).
set maf := maf_of_row true_divide (ncols G0).
split=> //.
- move=> r sz_r /orP[r0|r1]; rewrite /maf /maf_of_row.
    by rewrite ones_all0 // min0n.
  by rewrite ones_all1 // sz_r subnn minn0.
- rewrite /np_where zip_mask !size_map filter_mask; congr (mask _ _).
  rewrite (map_comp (fun x => fge x MAF_thrs) snd) -/(unzip2 _) unzip2_zip //.
  by rewrite size_iota size_map.
- exact: np_where_sorted.
- by rewrite -map_comp filter_mask.
Qed.

End FilterTheorems.

Lemma maf_filter_spec_demo :
  [/\ wf_array2 DemoFilter.G0, all binary (rows DemoFilter.G0)
    & exists2 f,
        cell_3b_filter Demo.true_divide Demo.fge Demo.MAF_thrs DemoFilter.G0
          = Ok f
        & zip (SNP_indices f) (SNPs_MAF f) =
          [:: (0, 1%:R / 3%:R); (3, 1%:R / 3%:R)]%R].
Proof.
split=> //.
have [f E [mafE _ zipE _ _]] :=
  @maf_filter_spec rat Demo.true_divide Demo.fge Demo.MAF_thrs
    DemoFilter.G0 isT isT.
exists f; first exact: E.
rewrite zipE mafE; vm_compute; reflexivity.
Defined.

(** ** Section 2a: loading the phenotypes *)

Section LoaderFacts.

Variables (ident : Type) (acn : eqType) (encode : ident -> acn) (F : Type).

(** The loader never raises; it keeps, in file order, the rows that hold
    no missing value. *)
Lemma load_pheno_body (raw : dataframe F ident) :
  body (load_pheno encode raw) =
  [seq (encode r.1, r.2) | r <- body raw & ~~ has isna r.2].
Proof. by rewrite /load_pheno /dropna /map_index /= filter_map. Qed.

End LoaderFacts.

(** C9, on a file with one missing and one non-numeric trait value: the
    loader drops the row with the missing value and keeps the row whose
    trait value is text. *)
Theorem load_pheno_keeps_text :
  body (load_pheno id DemoLoader.raw) =
  [:: (4, [:: Num (61%:R : rat)]); (2, [:: Str "late"%string]);
      (1, [:: Num (70%:R : rat)])]%R.
Proof. rewrite load_pheno_body; reflexivity. Qed.

(** ** Section 3c: the kinship submatrix *)

Section KinshipFacts.

Variable F : Type.
Implicit Types (a K : array2 F) (idx : seq nat).

Lemma mapM_onth (A B : Type) (f : A -> result B) (s : seq A) (t : seq B) :
  mapM f s = Ok t ->
  forall i, match onth s i with
            | Some x => exists2 y, f x = Ok y & onth t i = Some y
            | None => onth t i = None
            end.
Proof.
elim: s t => [|x s IHs] t /=; first by case=> <- i; rewrite /onth /= !nth_nil.
case Ex: (f x) => [y|] //=; case Es: (mapM f s) => [u|] //= [<-] [|i] /=.
  by exists y.
exact: (IHs _ Es i).
Qed.

Lemma take_idx_entry (T : Type) (s t : seq T) idx :
  take_idx s idx = Ok t ->
  forall j, onth t j = if onth idx j is Some b then onth s b else None.
Proof.
move=> /mapM_onth E j; move: (E j); case: (onth idx j) => [b|] //.
by rewrite /getitem; case=> y; case: (onth s b) => // x [->].
Qed.

Lemma kinship_subset_entry a idx K :
  kinship_subset a idx = Ok K ->
  forall i j, entry K i j =
    match onth idx i, onth idx j with
    | Some u, Some v => entry a u v
    | _, _ => None
    end.
Proof.
rewrite /kinship_subset /h5_take_rows; case: ifP => // _.
case E1: (take_idx (rows a) idx) => [rs|] //=.
rewrite /np_take_cols /=; case E2: (mapM _ rs) => [rs'|] //= [<-] i j.
rewrite /entry /=; move: (mapM_onth E2 i); rewrite (take_idx_entry E1).
case: (onth idx i) => [u|]; last by move->.
case: (onth (rows a) u) => [r|]; last by move->; case: (onth idx j).
by case=> r' /take_idx_entry E3 ->; rewrite E3; case: (onth idx j).
Qed.

End KinshipFacts.

Section TotalityFacts.

Lemma getitem_ok (T : Type) (s : seq T) (i : nat) :
  i < size s -> is_ok (getitem s i).
Proof. by case: s => [|x0 s] // lt_i; rewrite (getitem_nth x0). Qed.

Lemma mapM_ok (A B : Type) (f : A -> result B) (s : seq A) :
  all (fun x => is_ok (f x)) s -> is_ok (mapM f s).
Proof.
elim: s => [|x s IHs] //= /andP[]; case: (f x) => //= y _ /IHs.
by case: (mapM f s).
Qed.

Lemma take_idx_ok (T : Type) (s : seq T) (idx : seq nat) :
  all (fun i => i < size s) idx -> is_ok (take_idx s idx).
Proof.
move=> ok_idx; apply: mapM_ok; apply: sub_all ok_idx => i.
exact: getitem_ok.
Qed.

Lemma is_okP (A : Type) (m : result A) : is_ok m -> exists x, m = Ok x.
Proof. by case: m => // x _; exists x. Qed.

(** Increasing indices within a square matrix select a submatrix. *)
Lemma kinship_subset_ok (F : Type) (a : array2 F) (idx : seq nat) :
  square a -> all (fun i => i < ncols a) idx -> h5_increasing idx ->
  is_ok (kinship_subset a idx).
Proof.
move=> /andP[/eqP sz_a wf_a] ok_idx inc_idx.
rewrite /kinship_subset /h5_take_rows inc_idx /=.
rewrite (take_idx_nth [::]) ?sz_a //= /np_take_cols.
suff /is_okP[rs ->] : is_ok (mapM (fun r => take_idx r idx)
                               [seq nth [::] (rows a) i | i <- idx]) by [].
apply: mapM_ok; rewrite all_map; apply/allP => i i_idx /=.
apply: take_idx_ok.
have lt_i : i < size (rows a) by rewrite sz_a (allP ok_idx).
by rewrite (eqP (all_nthP [::] wf_a i lt_i)).
Qed.

End TotalityFacts.

Section KinshipTheorems.

Variable F : Type.
Implicit Types (a K : array2 F) (idx : seq nat).

(** C10. For a square symmetric kinship matrix and indices within it,
    whatever submatrix [kinship[idx, :][:, idx]] the cell produces is
    symmetric; and it does produce one when the indices increase (the
    notebook sorts them). *)
Theorem kinship_subset_symmetric a idx :
  square a -> symmetric a -> all (fun i => i < ncols a) idx ->
  (h5_increasing idx -> is_ok (kinship_subset a idx)) /\
  (forall K, kinship_subset a idx = Ok K -> symmetric K).
Proof.
move=> sq_a sym_a ok_idx; split=> [inc_idx|K EK i j].
  exact: kinship_subset_ok.
rewrite !(kinship_subset_entry EK).
by case: (onth idx i) => [u|]; case: (onth idx j) => [v|].
Qed.

End KinshipTheorems.

Lemma kinship_subset_symmetric_demo :
  [/\ square (kinship DemoKinship.kin), symmetric (kinship DemoKinship.kin),
      all (fun i => i < 5) [:: 1; 2; 3]
    & exists2 K, kinship_subset (kinship DemoKinship.kin) [:: 1; 2; 3] = Ok K
                 & symmetric K].
Proof.
have sym_kin : symmetric (kinship DemoKinship.kin).
  move=> i j; do 5?[case: i => [|i]]; do 5?[case: j => [|j]];
    rewrite /entry /onth /= ?nth_nil; reflexivity.
split=> //.
have [ok sym] :=
  @kinship_subset_symmetric rat (kinship DemoKinship.kin) [:: 1; 2; 3]
    isT sym_kin isT.
have [K EK] := is_okP (ok isT).
by exists K; [exact: EK | exact: (sym K EK)].
Defined.

(** ** The notebook as a whole *)

Section PipelineFacts.

Variables (ident : Type) (acn : eqType) (encode : ident -> acn) (F : Type).
Variables (true_divide : int -> nat -> F) (fge : F -> F -> bool).
Variables (MAF_thrs : F) (scan : runner F).

Local Notation prep := (prepare true_divide fge MAF_thrs).
Local Notation run := (notebook encode true_divide fge MAF_thrs scan).
Local Notation c3b := (cell_3b true_divide fge MAF_thrs).

Implicit Types (geno : geno_hdf acn) (kin : kin_hdf acn F).
Implicit Types (fs : files F) (f : filtered F).

Lemma cell_3b_inv geno idx f :
  c3b geno idx = Ok f ->
  exists2 G0, cell_3b_subset geno idx = Ok G0 &
    let m := [seq fge x MAF_thrs | x <- MAF_of true_divide G0] in
    f = Filtered (MAF_of true_divide G0) (np_where m)
          (mask m (MAF_of true_divide G0))
          (transpose (Array2 (ncols G0) (mask m (rows G0)))).
Proof.
rewrite /cell_3b; case E: (cell_3b_subset geno idx) => [G0|] //=.
by rewrite cell_3b_filterE => -[<-]; exists G0.
Qed.

Lemma filtered_sizes geno idx f :
  c3b geno idx = Ok f ->
  [/\ size (SNPs_MAF f) = size (SNP_indices f),
      ncols (G f) = size (SNP_indices f)
    & SNP_indices f = np_where [seq fge x MAF_thrs | x <- MAF f]].
Proof.
case/cell_3b_inv => G0 _ ->; split=> //=.
- by rewrite size_np_where size_mask // size_map.
- by rewrite size_np_where size_mask // size_map size_MAF_of.
Qed.

Lemma subset_no_columns geno G0 :
  cell_3b_subset geno [::] = Ok G0 -> ncols G0 = 0.
Proof.
rewrite /cell_3b_subset /h5_take_cols /=.
by case: (mapM _ _) => //= rs [<-].
Qed.

Lemma prepare_inv pheno geno kin p :
  prep pheno geno kin = Ok p ->
  [/\ cell_3a pheno geno = Ok (al p),
      c3b geno (geno_indices (al p)) = Ok (fl p)
    & cell_3c kin (pheno_aligned (al p)) = Ok (K p)].
Proof.
rewrite /prepare; case Ea: (cell_3a pheno geno) => [a|] //=.
case Ef: (c3b geno _) => [f|] //=; case Ek: (cell_3c kin _) => [k|] //=.
by case=> <-.
Qed.

(** An exception before the first write leaves the file store as it was. *)
Lemma notebook_prepare_raises raw geno kin fs e :
  prep (load_pheno encode raw) geno kin = Raise e ->
  run raw geno kin fs = (fs, Raise e).
Proof. by rewrite /notebook /io_bind /lift => ->. Qed.

Lemma notebook_scan_raises raw geno kin fs p e :
  prep (load_pheno encode raw) geno kin = Ok p ->
  scan (G (fl p)) (Y (al p)) (Some (K p)) = Raise e ->
  run raw geno kin fs = (fs, Raise e).
Proof. by rewrite /notebook /io_bind /lift => -> ->. Qed.

End PipelineFacts.

Lemma demo_scan_rejects_empty : rejects_empty DemoRun.scan.
Proof.
by move=> G Y K; rewrite /DemoRun.scan => ->; exists RunnerError.
Qed.

Lemma demo_scan_one_test_per_snp : one_test_per_snp DemoRun.scan.
Proof.
move=> G Y K r; rewrite /DemoRun.scan; case: ifP => // _ [<-] /=.
rewrite size_nseq /effsizes_of /=; split=> //.
by elim: (ncols G) => [|n IHn] //=; rewrite IHn.
Qed.

Section AbortTheorems.

Variables (ident : Type) (acn : eqType) (encode : ident -> acn) (F : Type).
Variables (true_divide : int -> nat -> F) (fge : F -> F -> bool).
Variables (MAF_thrs : F) (scan : runner F).

Local Notation prep := (prepare true_divide fge MAF_thrs).
Local Notation run := (notebook encode true_divide fge MAF_thrs scan).

Implicit Types (geno : geno_hdf acn) (kin : kin_hdf acn F) (fs : files F).

(** C5. With a runner that refuses an empty genotype matrix: when no
    phenotyped accession is genotyped, the notebook ends in an exception
    and the file store is what it was before the run.  If the preparation
    gets through, the accession order, [Y] and [G] are empty and the
    exception is the one the runner raises on them. *)
Theorem empty_intersection_aborts (raw : dataframe F ident) geno kin fs :
  rejects_empty scan ->
  ~~ has (fun a => a \in accessions geno) (labels (load_pheno encode raw)) ->
  exists e,
    run raw geno kin fs = (fs, Raise e) /\
    forall p, prep (load_pheno encode raw) geno kin = Ok p ->
      [/\ acn_order (al p) = [::], rows (Y (al p)) = [::],
          rows (G (fl p)) = [::]
        & scan (G (fl p)) (Y (al p)) (Some (K p)) = Raise e].
Proof.
move=> scan_empty no_common.
case Ep: (prep (load_pheno encode raw) geno kin) => [p|e]; last first.
  by exists e; split=> //; apply: notebook_prepare_raises.
have [Ea Eb _] := prepare_inv Ep.
have [G0 EG0 Ef] := cell_3b_inv Eb.
have [idx0 ord0 Y0] :
  [/\ geno_indices (al p) = [::], acn_order (al p) = [::]
    & rows (Y (al p)) = [::]].
  move: Ea; rewrite /cell_3a acn_genotypedE.
  have -> : [seq a <- labels (load_pheno encode raw) | a \in accessions geno]
            = [::].
    by apply/eqP; rewrite -[_ == _]negbK -has_filter.
  by rewrite /loc /= => -[<-].
have G0_rows : rows (G (fl p)) = [::].
  move: EG0 Ef; rewrite idx0 => /subset_no_columns ncols0 /= ->.
  by rewrite /= ncols0.
have empty_G : nilp (rows (G (fl p))) || (ncols (G (fl p)) == 0).
  by rewrite G0_rows.
have [e Ee] := scan_empty _ (Y (al p)) (Some (K p)) empty_G.
exists e; split; first exact: notebook_scan_raises Ep Ee.
by move=> _ [<-].
Qed.

(** C6. With a runner that refuses an empty genotype matrix: when no SNP
    of the aligned genotype matrix has [MAF >= MAF_thrs], the notebook ends
    in an exception and the file store is what it was before the run; no
    result file, empty or not, is written.  If the preparation gets
    through, no SNP index is retained, [G] has no column and the exception
    is the one the runner raises on it. *)
Theorem empty_filter_aborts (raw : dataframe F ident) geno kin fs :
  rejects_empty scan ->
  (if prep (load_pheno encode raw) geno kin is Ok p
   then ~~ has (fun x => fge x MAF_thrs) (MAF (fl p)) else true) ->
  exists e,
    run raw geno kin fs = (fs, Raise e) /\
    forall p, prep (load_pheno encode raw) geno kin = Ok p ->
      [/\ SNP_indices (fl p) = [::], ncols (G (fl p)) = 0
        & scan (G (fl p)) (Y (al p)) (Some (K p)) = Raise e].
Proof.
move=> scan_empty.
case Ep: (prep (load_pheno encode raw) geno kin) => [p|e] no_snp; last first.
  by exists e; split=> //; apply: notebook_prepare_raises.
have [_ Eb _] := prepare_inv Ep.
have [_ ncolsG idxE] := filtered_sizes Eb.
have idx0 : SNP_indices (fl p) = [::].
  apply: size0nil; rewrite idxE size_np_where; apply/eqP.
  rewrite -leqn0 leqNgt -has_count has_map.
  by rewrite (eq_has (a2 := fun x => fge x MAF_thrs)).
have ncols0 : ncols (G (fl p)) = 0 by rewrite ncolsG idx0.
have empty_G : nilp (rows (G (fl p))) || (ncols (G (fl p)) == 0).
  by rewrite ncols0 orbT.
have [e Ee] := scan_empty _ (Y (al p)) (Some (K p)) empty_G.
exists e; split; first exact: notebook_scan_raises Ep Ee.
by move=> _ [<-].
Qed.

End AbortTheorems.

Lemma empty_intersection_aborts_demo :
  [/\ rejects_empty DemoRun.scan,
      ~~ has (fun a => a \in accessions Demo.geno)
           (labels (load_pheno id DemoRun.raw_apart))
    & exists e, DemoRun.run Demo.MAF_thrs DemoRun.raw_apart = ([::], Raise e)].
Proof.
split=> //; first exact: demo_scan_rejects_empty.
have [e [Ee _]] :=
  @empty_intersection_aborts _ _ id _ Demo.true_divide Demo.fge
    Demo.MAF_thrs DemoRun.scan DemoRun.raw_apart Demo.geno
    DemoKinship.kin [::] demo_scan_rejects_empty isT.
exists e; exact: Ee.
Defined.

Lemma empty_filter_aborts_demo :
  rejects_empty DemoRun.scan /\
  exists e, DemoRun.run DemoRun.high_thrs DemoRun.raw = ([::], Raise e).
Proof.
split; first exact: demo_scan_rejects_empty.
have no_snp :
  if prepare Demo.true_divide Demo.fge DemoRun.high_thrs
       (load_pheno id DemoRun.raw) Demo.geno DemoKinship.kin is Ok p
  then ~~ has (fun x => Demo.fge x DemoRun.high_thrs) (MAF (fl p)) else true.
  vm_compute; reflexivity.
have [e [Ee _]] :=
  @empty_filter_aborts _ _ id _ Demo.true_divide Demo.fge
    DemoRun.high_thrs DemoRun.scan DemoRun.raw Demo.geno
    DemoKinship.kin [::] demo_scan_rejects_empty no_snp.
exists e; exact: Ee.
Defined.

(** ** Sections 5b and 5d: the result files *)

Section WriterFacts.

Variables (acn : eqType) (F : Type).
Implicit Types (geno : geno_hdf acn) (r : scan_result F) (f : csv F).

Lemma csv_of_new_frame (names : seq string) (rs : seq (seq (cell F))) :
  csv_of_frame (new_frame names rs) false = Csv names rs.
Proof.
rewrite /csv_of_frame /new_frame /=; congr (Csv _ _).
by rewrite -/(unzip2 _) unzip2_zip // size_iota.
Qed.

Lemma result_rows_columns (c : seq nat) (p : seq int) (pv m e : seq F) :
  size p = size c -> size pv = size c -> size m = size c -> size e = size c ->
  let rs := [seq result_row t | t <- zip c (zip p (zip pv (zip m e)))] in
  [/\ all (fun rec => size rec == 5) rs,
      [seq onth rec 0 | rec <- rs] = [seq Some (Int (Posz x)) | x <- c],
      [seq onth rec 1 | rec <- rs] = [seq Some (Int x) | x <- p],
      [seq onth rec 2 | rec <- rs] = [seq Some (Num x) | x <- pv]
    & [seq onth rec 3 | rec <- rs] = [seq Some (Num x) | x <- m] /\
      [seq onth rec 4 | rec <- rs] = [seq Some (Num x) | x <- e]].
Proof.
elim: c p pv m e => [|x c IHc] [|y p] [|z pv] [|u m] [|v e] //=.
move=> [sp] [spv] [sm] [se].
by have [-> -> -> -> [-> ->]] := IHc _ _ _ _ sp spv sm se.
Qed.

Lemma gwas_results_inv geno (idx : seq nat) (mafs : seq F) r gw :
  gwas_results geno idx mafs r = Ok gw ->
  exists2 pos, positions_of geno idx = Ok pos &
    gw = new_frame result_columns
           [seq result_row t
           | t <- zip (chromosomes_of geno idx)
                    (zip pos (zip (pv20 r) (zip mafs (effsizes_of r))))].
Proof.
rewrite /gwas_results; case: (positions_of geno idx) => [pos|] //= [<-].
by exists pos.
Qed.

Lemma gwas_results_holds geno (idx : seq nat) (mafs : seq F) r gw :
  size mafs = size idx -> size (pv20 r) = size idx ->
  size (effsizes_of r) = size idx ->
  gwas_results geno idx mafs r = Ok gw ->
  holds_results (csv_of_frame gw false) geno idx mafs r.
Proof.
move=> sm spv se /gwas_results_inv[pos Epos ->]; rewrite csv_of_new_frame.
have spos : size pos = size idx by exact: mapM_size Epos.
have sc : size (chromosomes_of geno idx) = size idx by rewrite size_map.
rewrite /holds_results /csv_column /=.
have [] := @result_rows_columns (chromosomes_of geno idx) pos (pv20 r) mafs
             (effsizes_of r); rewrite ?sc //.
move=> -> -> -> -> [-> ->]; split=> //.
- by rewrite /chromosomes_of -map_comp.
- rewrite (map_comp (omap (@Int F)) (onth (positions geno))).
  by rewrite -(take_idx_onth Epos) -!map_comp.
Qed.

Lemma read_file_written (fs : files F) (path : string) f :
  read_file ((write_file path f fs).1) path = Some f.
Proof. by rewrite /read_file /write_file /= String.eqb_refl. Qed.

Lemma read_file_other (fs : files F) (path path' : string) f :
  String.eqb path path' = false ->
  read_file ((write_file path' f fs).1) path = read_file fs path.
Proof.
move=> ne_p; rewrite /read_file /write_file /= String.eqb_sym ne_p.
rewrite -filter_predI; congr (match _ with [::] => _ | _ => _ end).
apply: eq_filter => e /=; case E: (String.eqb e.1 path) => //=.
by move/String.eqb_eq: E => ->; rewrite ne_p.
Qed.

End WriterFacts.

Section OutputTheorems.

Variables (ident : Type) (acn : eqType) (encode : ident -> acn) (F : Type).
Variables (true_divide : int -> nat -> F) (fge : F -> F -> bool).
Variables (MAF_thrs : F) (scan : runner F).

Local Notation prep := (prepare true_divide fge MAF_thrs).
Local Notation run := (notebook encode true_divide fge MAF_thrs scan).

Implicit Types (geno : geno_hdf acn) (kin : kin_hdf acn F) (fs : files F).

(** A run that ends normally has gone through every cell. *)
Lemma notebook_done (raw : dataframe F ident) geno kin fs fs' :
  run raw geno kin fs = (fs', Ok tt) ->
  exists p r r_nc gw gw_nc,
    [/\ prep (load_pheno encode raw) geno kin = Ok p,
        scan (G (fl p)) (Y (al p)) (Some (K p)) = Ok r /\
        scan (G (fl p)) (Y (al p)) None = Ok r_nc,
        gwas_results geno (SNP_indices (fl p)) (SNPs_MAF (fl p)) r = Ok gw,
        gwas_results geno (SNP_indices (fl p)) (SNPs_MAF (fl p)) r_nc
          = Ok gw_nc
      & fs' = (write_file output_file_nc (csv_of_frame gw_nc false)
                 (write_file output_file (csv_of_frame gw false) fs).1).1].
Proof.
rewrite /notebook /io_bind /lift /to_csv.
case Ep: (prep _ geno kin) => [p|] //=.
case Er: (scan _ _ (Some _)) => [r|] //=.
case Eg: (gwas_results _ _ _ r) => [gw|] //=.
case Ern: (scan _ _ None) => [r_nc|] //=.
case Egn: (gwas_results _ _ _ r_nc) => [gw_nc|] //= [<-].
by exists p, r, r_nc, gw, gw_nc.
Qed.

Lemma output_files_apart : String.eqb output_file output_file_nc = false.
Proof. by []. Qed.

(** C7, as the code has it. When the runner returns one p-value and one
    candidate effect size per SNP, a run that ends normally has written
    two files; each has the header [chr, pos, pvalue, maf, GVE] (the
    effect-size column is named [GVE]), five cells in every record (no
    index column) and one record per retained SNP, in the order of the
    retained SNP index list, holding that SNP's chromosome, position,
    p-value, frequency and effect size. *)
Theorem output_schema (raw : dataframe F ident) geno kin fs fs' :
  one_test_per_snp scan ->
  run raw geno kin fs = (fs', Ok tt) ->
  exists p r r_nc f f_nc,
    [/\ prep (load_pheno encode raw) geno kin = Ok p,
        scan (G (fl p)) (Y (al p)) (Some (K p)) = Ok r /\
        scan (G (fl p)) (Y (al p)) None = Ok r_nc,
        read_file fs' output_file = Some f /\
        read_file fs' output_file_nc = Some f_nc,
        holds_results f geno (SNP_indices (fl p)) (SNPs_MAF (fl p)) r
      & holds_results f_nc geno (SNP_indices (fl p)) (SNPs_MAF (fl p)) r_nc].
Proof.
move=> per_snp /notebook_done[p [r [r_nc [gw [gw_nc]]]]].
case=> Ep [Er Ern] Eg Egn ->.
have [_ Eb _] := prepare_inv Ep.
have [sm sG _] := filtered_sizes Eb.
have [spv se] := per_snp _ _ _ _ Er.
have [spvn sen] := per_snp _ _ _ _ Ern.
exists p, r, r_nc, (csv_of_frame gw false), (csv_of_frame gw_nc false).
split=> //.
- by apply: gwas_results_holds Eg; rewrite ?spv ?se.
- by apply: gwas_results_holds Egn; rewrite ?spvn ?sen.
Qed.

(** C8. When the runner returns one p-value and one candidate effect size
    per SNP, the two files of a run that ends normally have the same
    header, the same number of records and the same [chr], [pos] and [maf]
    columns. *)
Theorem outputs_agree (raw : dataframe F ident) geno kin fs fs' :
  one_test_per_snp scan ->
  run raw geno kin fs = (fs', Ok tt) ->
  exists f f_nc,
    [/\ read_file fs' output_file = Some f,
        read_file fs' output_file_nc = Some f_nc,
        header f = header f_nc,
        size (records f) = size (records f_nc)
      & [/\ csv_column f 0 = csv_column f_nc 0,
            csv_column f 1 = csv_column f_nc 1
          & csv_column f 3 = csv_column f_nc 3]].
Proof.
move=> per_snp /notebook_done[p [r [r_nc [gw [gw_nc]]]]].
case=> Ep [Er Ern] Eg Egn ->.
have [_ Eb _] := prepare_inv Ep.
have [sm sG _] := filtered_sizes Eb.
have [spv se] := per_snp _ _ _ _ Er.
have [spvn sen] := per_snp _ _ _ _ Ern.
have [h _ c0 c1 [_ c3 _]] : holds_results (csv_of_frame gw false) geno
    (SNP_indices (fl p)) (SNPs_MAF (fl p)) r.
  by apply: gwas_results_holds Eg; rewrite ?spv ?se.
have [hn _ c0n c1n [_ c3n _]] : holds_results (csv_of_frame gw_nc false) geno
    (SNP_indices (fl p)) (SNPs_MAF (fl p)) r_nc.
  by apply: gwas_results_holds Egn; rewrite ?spvn ?sen.
exists (csv_of_frame gw false), (csv_of_frame gw_nc false).
split; rewrite ?read_file_written ?h ?hn //.
- by move: (congr1 size c0) (congr1 size c0n); rewrite /csv_column !size_map
    => -> ->.
- by rewrite c0 c0n c1 c1n c3 c3n.
Qed.

End OutputTheorems.

Lemma demo_run_done :
  DemoRun.run Demo.MAF_thrs DemoRun.raw = (demo_files, Ok tt).
Proof. vm_compute; reflexivity. Qed.

Lemma output_schema_demo :
  [/\ one_test_per_snp DemoRun.scan,
      DemoRun.run Demo.MAF_thrs DemoRun.raw = (demo_files, Ok tt)
    & exists2 f, read_file demo_files output_file = Some f &
        header f = [:: "chr"; "pos"; "pvalue"; "maf"; "GVE"]%string /\
        all (fun rec => size rec == 5) (records f)].
Proof.
split; [exact: demo_scan_one_test_per_snp | exact: demo_run_done |].
have [p [r [r_nc [f [f_nc [_ _ [Ef _] [hf sf _ _ _] _]]]]]] :=
  @output_schema _ _ id _ Demo.true_divide Demo.fge Demo.MAF_thrs
    DemoRun.scan DemoRun.raw Demo.geno DemoKinship.kin [::] demo_files
    demo_scan_one_test_per_snp demo_run_done.
exists f; [exact: Ef | split; [exact: hf | exact: sf]].
Defined.

(** The effect-size column of a written file is named [GVE], not
    [effect_size]. *)
Lemma output_header_is_GVE :
  DemoRun.run Demo.MAF_thrs DemoRun.raw = (demo_files, Ok tt) /\
  exists2 f, read_file demo_files output_file = Some f &
    header f = [:: "chr"; "pos"; "pvalue"; "maf"; "GVE"]%string /\
    header f <> [:: "chr"; "pos"; "pvalue"; "maf"; "effect_size"]%string.
Proof.
split; first exact: demo_run_done.
eexists; first by vm_compute; reflexivity.
split; first reflexivity.
by move=> /= [].
Qed.

Lemma outputs_agree_demo :
  [/\ one_test_per_snp DemoRun.scan,
      DemoRun.run Demo.MAF_thrs DemoRun.raw = (demo_files, Ok tt)
    & exists f f_nc,
        [/\ read_file demo_files output_file = Some f,
            read_file demo_files output_file_nc = Some f_nc,
            csv_column f 0 = csv_column f_nc 0,
            csv_column f 1 = csv_column f_nc 1
          & csv_column f 3 = csv_column f_nc 3]].
Proof.
split; [exact: demo_scan_one_test_per_snp | exact: demo_run_done |].
have [f [f_nc [Ef Efn _ _ [c0 c1 c3]]]] :=
  @outputs_agree _ _ id _ Demo.true_divide Demo.fge Demo.MAF_thrs
    DemoRun.scan DemoRun.raw Demo.geno DemoKinship.kin [::] demo_files
    demo_scan_one_test_per_snp demo_run_done.
exists f, f_nc; split; [exact: Ef | exact: Efn | exact: c0 | exact: c1 | exact: c3].
Defined.

(** ** Sections 3a to 3c: the aligned triple *)

(** C1, on a kinship file that lists the accessions in another order than
    the genotype file (5, 4, 3, 2, 1 against 2, 3, 4, 5).  The accession
    order is [2, 3, 4], and the rows of [Y] follow it; the kinship indices
    are sorted on their own, so row and column 0 of [K] belong to
    accession 4: [K[0][0]] is the kinship of 4 with itself, not that of
    accession 2, and [K[0][2]], [K[2][2]] are those of (4, 2) and (2, 2). *)
Theorem kinship_rows_out_of_order :
  exists2 p,
    prepare Demo.true_divide Demo.fge Demo.MAF_thrs
      (load_pheno id DemoRun.raw) Demo.geno DemoKinship.kin_reversed = Ok p &
    [/\ acn_order (al p) = [:: 2; 3; 4],
        rows (Y (al p)) =
          [:: [:: Num (57%:R : rat)]; [:: Num 88%:R]; [:: Num 61%:R]]%R,
        entry (K p) 0 0 = kin_at DemoKinship.kin_reversed 4 4,
        entry (K p) 0 0 <> kin_at DemoKinship.kin_reversed 2 2
      & entry (K p) 2 2 = kin_at DemoKinship.kin_reversed 2 2].
Proof.
eexists; first by vm_compute; reflexivity.
split; try by vm_compute; reflexivity.
by vm_compute; case.
Qed.

Section TripleFacts.

Variables (acn : eqType) (F : Type).
Variables (true_divide : int -> nat -> F) (fge : F -> F -> bool).
Variable MAF_thrs : F.

Implicit Types (pheno : dataframe F acn) (geno : geno_hdf acn).
Implicit Types (kin : kin_hdf acn F) (a : array2 int).

Lemma cell_3b_subsetE geno (J : seq nat) :
  wf_array2 (snps geno) -> sorted ltn J ->
  all (fun i => i < ncols (snps geno)) J ->
  cell_3b_subset geno J =
  Ok (Array2 (size J) [seq [seq nth 0%R r i | i <- J] | r <- rows (snps geno)]).
Proof.
move=> wf_s inc_J ok_J; rewrite /cell_3b_subset /h5_take_cols.
rewrite /h5_increasing inc_J ok_J /=.
rewrite (@mapM_map_ok _ _ _ (fun r => [seq nth 0%R r i | i <- J])
           (fun r => size r == ncols (snps geno))) //.
by move=> r /eqP sz_r; rewrite (take_idx_nth 0%R) // sz_r.
Qed.

Lemma column_nth a (j : nat) :
  wf_array2 a -> j < ncols a -> column a j = [seq nth 0%R r j | r <- rows a].
Proof.
rewrite /column /wf_array2 => wf_a lt_j.
elim: (rows a) wf_a => [|r rs IHr] //= /andP[/eqP sz_r wf_rs].
by rewrite (onth_nth 0%R) ?sz_r //= IHr.
Qed.

Lemma transpose_rows a :
  wf_array2 a ->
  rows (transpose a) =
  [seq [seq nth 0%R r j | r <- rows a] | j <- iota 0 (ncols a)].
Proof.
move=> wf_a; rewrite /transpose /=; apply/eq_in_map => j.
by rewrite mem_iota add0n /= => lt_j; rewrite column_nth.
Qed.

Lemma mask_where (T : Type) (x0 : T) (s : seq T) (m : bitseq) :
  size m = size s -> mask m s = [seq nth x0 s i | i <- np_where m].
Proof.
by move=> sz_m; rewrite /np_where map_mask sz_m map_nth_iota0 // take_size.
Qed.

End TripleFacts.

Section TripleTheorem.

Variables (acn : eqType) (F : Type).
Variables (true_divide : int -> nat -> F) (fge : F -> F -> bool).
Variable MAF_thrs : F.

Local Notation prep := (prepare true_divide fge MAF_thrs).

Implicit Types (pheno : dataframe F acn) (geno : geno_hdf acn).
Implicit Types (kin : kin_hdf acn F).

Lemma onth_map (A B : Type) (g : A -> B) (s : seq A) (i : nat) :
  onth [seq g x | x <- s] i = omap g (onth s i).
Proof.
by elim: s i => [|x s IHs] [|i] //=; rewrite /onth /= ?nth_nil //; apply: IHs.
Qed.

Lemma kinship_subset_shape (a K0 : array2 F) (idx : seq nat) :
  kinship_subset a idx = Ok K0 -> shape K0 = (size idx, size idx).
Proof.
rewrite /kinship_subset /h5_take_rows; case: ifP => // _.
case E1: (take_idx (rows a) idx) => [rs|] //=.
rewrite /np_take_cols /=; case E2: (mapM _ rs) => [rs'|] //= [<-].
by rewrite /shape /= (mapM_size E2) (mapM_size E1).
Qed.

(** The aligned triple.  For duplicate-free phenotype and genotype
    accessions, a well-shaped call matrix and a square kinship matrix that
    covers the aligned accessions and lists them in the same relative
    order as the genotype file, the preparation succeeds and the three
    matrices follow the one accession order [order_of pheno geno]:
    [Y] is N x (number of trait columns), [G] is N x M and [K] is N x N;
    row i of [Y] is the phenotype row of the i-th accession, row i of [G]
    holds its calls at the retained SNPs, and [K[i][j]] is the kinship of
    the i-th and the j-th accession. *)
Theorem prepare_aligned pheno geno kin :
  uniq (labels pheno) -> uniq (accessions geno) ->
  wf_array2 (snps geno) -> ncols (snps geno) = size (accessions geno) ->
  square (kinship kin) -> ncols (kinship kin) = size (kin_accessions kin) ->
  all (fun x => x \in kin_accessions kin) (order_of pheno geno) ->
  sorted ltn [seq index x (kin_accessions kin) | x <- order_of pheno geno] ->
  exists2 p, prep pheno geno kin = Ok p &
    [/\ acn_order (al p) = order_of pheno geno,
        [/\ shape (Y (al p)) =
              (size (order_of pheno geno), size (columns pheno)),
            shape (G (fl p)) =
              (size (order_of pheno geno), size (SNP_indices (fl p)))
          & shape (K p) =
              (size (order_of pheno geno), size (order_of pheno geno))],
        zip (order_of pheno geno) (rows (Y (al p))) =
          flatten [seq rows_at pheno x | x <- order_of pheno geno],
        rows (G (fl p)) =
          [seq [seq nth 0%R (nth [::] (rows (snps geno)) s)
                  (index x (accessions geno))
               | s <- SNP_indices (fl p)]
          | x <- order_of pheno geno]
      & forall i j, entry (K p) i j =
          match onth (order_of pheno geno) i, onth (order_of pheno geno) j with
          | Some x, Some y => kin_at kin x y
          | _, _ => None
          end].
Proof.
move=> UP UG wf_s nc_s sq_k nc_k ord_k inc_k.
set order := order_of pheno geno in ord_k inc_k *.
set J := [seq index x (accessions geno) | x <- order].
set I := [seq index x (kin_accessions kin) | x <- order] in inc_k.
have ord_P : all (fun k => k \in labels pheno) order.
  by apply/allP => x; rewrite mem_filter => /andP[].
have lab : labels (blocks pheno order) = order by exact: labels_blocks.
have inc_J : sorted ltn J by exact: index_sorted_filter.
have ok_J : all (fun i => i < ncols (snps geno)) J.
  rewrite nc_s all_map; apply/allP => x /=.
  by rewrite mem_filter index_mem => /andP[].
have ok_I : all (fun i => i < ncols (kinship kin)) I.
  rewrite nc_k all_map; apply/allP => x x_ord /=.
  by rewrite index_mem (allP ord_k).
have [K0 EK] := is_okP (kinship_subset_ok sq_k ok_I inc_k).
have EI : mapM (where0 (kin_accessions kin)) order = Ok I.
  apply: (@mapM_map_ok _ _ _ _ (fun x => x \in kin_accessions kin)) => // x.
  by rewrite where0E => ->.
have sI : sort leq I = I.
  apply: (sorted_sort leq_trans).
  by move: inc_k; rewrite ltn_sorted_uniq_leq => /andP[].
set S := rows (snps geno).
set G0 := Array2 (size J) [seq [seq nth 0%R r i | i <- J] | r <- S].
set m := [seq fge x MAF_thrs | x <- MAF_of true_divide G0].
have sz_m : size m = size S by rewrite size_map size_MAF_of size_map.
exists (Prepared
          (Aligned (blocks pheno order) J order (to_numpy (blocks pheno order)))
          (Filtered (MAF_of true_divide G0) (np_where m)
             (mask m (MAF_of true_divide G0))
             (transpose (Array2 (size J) (mask m (rows G0)))))
          K0).
  rewrite /prepare cell_3aE //= -/order -/J /cell_3b cell_3b_subsetE //=.
  by rewrite cell_3b_filterE /= /cell_3c lab EI /= sI EK.
have sz_J : size J = size order by rewrite size_map.
have sz_B : size (body (blocks pheno order)) = size order.
  by rewrite -[RHS](congr1 size lab) /labels size_map.
split=> //=.
- split.
  + by rewrite /shape /= size_map sz_B.
  + rewrite /shape /= size_map size_iota sz_J size_np_where.
    by rewrite size_mask // size_map.
  + by rewrite (kinship_subset_shape EK) size_map.
- by rewrite -[X in zip X _]lab; apply: zip_unzip.
- have wf_r : wf_array2 (Array2 (size J) (mask m (rows G0))).
    rewrite /wf_array2 /=; apply/allP => r /mem_mask /mapP[r' _ ->].
    by rewrite size_map.
  have /= -> := transpose_rows wf_r.
  rewrite -map_mask (mask_where [::] sz_m) -/S.
  rewrite [RHS](map_comp
    (fun i => [seq nth 0%R (nth [::] S s) i | s <- np_where m])
    (fun x => index x (accessions geno))) -/J.
  rewrite -[X in _ = [seq _ | i <- X]](mkseq_nth 0 J) /mkseq -[RHS]map_comp.
  apply/eq_in_map => j; rewrite mem_iota /= add0n => lt_j.
  by rewrite -!map_comp; apply/eq_map => s /=; rewrite (nth_map 0).
- move=> i j; rewrite (kinship_subset_entry EK) !onth_map.
  by case: (onth order i) => [x|]; case: (onth order j) => [y|].
Qed.

End TripleTheorem.

Lemma prepare_aligned_demo :
  [/\ uniq (labels Demo.pheno), uniq (accessions Demo.geno),
      square (kinship DemoKinship.kin)
    & exists2 p,
        prepare Demo.true_divide Demo.fge Demo.MAF_thrs Demo.pheno Demo.geno
          DemoKinship.kin = Ok p
        & acn_order (al p) = [:: 2; 3; 4] /\ shape (K p) = (3, 3)].
Proof.
split=> //.
have [p Ep [ord [_ _ shK] _ _ _]] :=
  @prepare_aligned _ _ Demo.true_divide Demo.fge Demo.MAF_thrs Demo.pheno
    Demo.geno DemoKinship.kin isT isT isT (erefl _) isT (erefl _) isT isT.
exists p; [exact: Ep | split; [exact: ord | exact: shK]].
Defined.

Section Completion.

Variables (ident : Type) (acn : eqType) (encode : ident -> acn) (F : Type).
Variables (true_divide : int -> nat -> F) (fge : F -> F -> bool).
Variables (MAF_thrs : F) (scan : runner F).

Local Notation prep := (prepare true_divide fge MAF_thrs).
Local Notation run := (notebook encode true_divide fge MAF_thrs scan).

Implicit Types (geno : geno_hdf acn) (kin : kin_hdf acn F) (fs : files F).

Lemma SNP_indices_bound geno (idx : seq nat) (f : filtered F) :
  cell_3b true_divide fge MAF_thrs geno idx = Ok f ->
  all (fun i => i < size (rows (snps geno))) (SNP_indices f).
Proof.
move=> Ef; have [G0] := cell_3b_inv Ef.
rewrite /cell_3b_subset /h5_take_cols.
case: ifP => // _; case: ifP => // _.
case E: (mapM _ _) => [rs|] //= [<-] -> /=.
have := np_where_bound
  [seq fge x MAF_thrs | x <- MAF_of true_divide (Array2 (size idx) rs)].
by rewrite size_map size_MAF_of /= (mapM_size E).
Qed.

Lemma gwas_results_ok geno (idx : seq nat) (mafs : seq F) (r : scan_result F) :
  all (fun i => i < size (positions geno)) idx ->
  is_ok (gwas_results geno idx mafs r).
Proof.
move=> /take_idx_ok; rewrite /gwas_results /positions_of /take_idx.
by case: (mapM _ idx).
Qed.

(** The notebook runs to its end, and then holds both files, whenever the
    preparation succeeds, every SNP has a position and the runner returns
    from both calls. *)
Theorem notebook_completes (raw : dataframe F ident) geno kin fs p r r_nc :
  prep (load_pheno encode raw) geno kin = Ok p ->
  size (rows (snps geno)) <= size (positions geno) ->
  scan (G (fl p)) (Y (al p)) (Some (K p)) = Ok r ->
  scan (G (fl p)) (Y (al p)) None = Ok r_nc ->
  exists fs',
    [/\ run raw geno kin fs = (fs', Ok tt),
        read_file fs' output_file <> None
      & read_file fs' output_file_nc <> None].
Proof.
move=> Ep le_pos Er Ern; have [_ Eb _] := prepare_inv Ep.
have ok_idx : all (fun i => i < size (positions geno)) (SNP_indices (fl p)).
  apply: sub_all (SNP_indices_bound Eb) => i lt_i.
  exact: leq_trans lt_i le_pos.
have [gw Eg] :=
  is_okP (@gwas_results_ok geno _ (SNPs_MAF (fl p)) r ok_idx).
have [gw_nc Egn] :=
  is_okP (@gwas_results_ok geno _ (SNPs_MAF (fl p)) r_nc ok_idx).
eexists; split.
- by rewrite /notebook /io_bind /lift /to_csv Ep /= Er /= Eg /= Ern /= Egn.
- by rewrite read_file_other ?read_file_written ?output_files_apart.
- by rewrite read_file_written.
Qed.

End Completion.

Lemma notebook_completes_demo :
  exists fs',
    DemoRun.run Demo.MAF_thrs DemoRun.raw = (fs', Ok tt) /\
    read_file fs' output_file <> None.
Proof.
edestruct (@notebook_completes nat _ id rat Demo.true_divide Demo.fge
             Demo.MAF_thrs DemoRun.scan DemoRun.raw Demo.geno
             DemoKinship.kin [::]) as [fs' [E f1 f2]].
- vm_compute; reflexivity.
- reflexivity.
- vm_compute; reflexivity.
- vm_compute; reflexivity.
- exists fs'; split; [exact: E | exact: f1].
Defined.

(** ** Further properties of single cells *)

(** [bisect] on an array in non-decreasing order returns the insertion
    point to the right of the key: everything before it is [<=] the key,
    everything from it on is greater. *)
Theorem bisect_right_spec (a : seq nat) (x : nat) :
  sorted leq a ->
  [/\ bisect a x <= size a,
      forall i, i < bisect a x -> nth 0 a i <= x
    & forall i, bisect a x <= i -> i < size a -> x < nth 0 a i].
Proof.
move=> a_sorted.
have [] := @bisect_loop_inv a x a_sorted (size a) 0 (size a) (leq0n _)
             (leqnn _).
- by rewrite subn0.
- by [].
- by move=> i le_i lt_i; move: (leq_ltn_trans le_i lt_i); rewrite ltnn.
by rewrite -/(bisect a x) => bel abv le_r; split.
Qed.

Lemma bisect_right_spec_demo :
  sorted leq [:: 10; 25; 40] /\ bisect [:: 10; 25; 40] 25 <= 3.
Proof.
split; first reflexivity.
by have [le_r _ _] := @bisect_right_spec [:: 10; 25; 40] 25 isT.
Defined.

Section CellTheorems.

Variables (ident : Type) (acn : eqType) (encode : ident -> acn) (F : Type).
Variables (true_divide : int -> nat -> F) (fge : F -> F -> bool).
Variable MAF_thrs : F.


(** The filter cell raises on no matrix; the frequencies handed on are
    those at least [MAF_thrs], in input order, one per retained SNP index
    and per column of the matrix handed on. *)
Theorem maf_filter_total (G0 : array2 int) :
  exists2 f, cell_3b_filter true_divide fge MAF_thrs G0 = Ok f &
    [/\ MAF f = MAF_of true_divide G0,
        SNPs_MAF f = [seq x <- MAF f | fge x MAF_thrs],
        size (SNP_indices f) = size (SNPs_MAF f)
      & ncols (G f) = size (SNP_indices f)].
Proof.
rewrite cell_3b_filterE; eexists; first by [].
split=> //=; first by rewrite filter_mask.
- by rewrite size_np_where size_mask // size_map.
- by rewrite size_np_where size_mask // size_map size_MAF_of.
Qed.

End CellTheorems.

(** ** The run of the demo data, end to end

    Phenotyped accessions 4, 2, 3, 1 (and 6 without a value), genotyped
    accessions 2, 3, 4, 5, four SNPs, threshold 0.05: the aligned
    accessions are 2, 3, 4 in genotype order, the SNPs 0 and 3 pass the
    filter (frequency 1/3 over three accessions), the runner is called with
    and without the 3 x 3 kinship submatrix, and the two files agree on
    their [chr], [pos] and [maf] columns. *)
Theorem demo_end_to_end :
  exists p f f_nc,
    [/\ prepare Demo.true_divide Demo.fge Demo.MAF_thrs
          (load_pheno id DemoRun.raw) Demo.geno DemoKinship.kin = Ok p,
        acn_order (al p) = [:: 2; 3; 4] /\ SNP_indices (fl p) = [:: 0; 3],
        shape (Y (al p)) = (3, 1) /\ shape (G (fl p)) = (3, 2) /\
        shape (K p) = (3, 3),
        DemoRun.run Demo.MAF_thrs DemoRun.raw = (demo_files, Ok tt)
      & [/\ read_file demo_files output_file = Some f,
            read_file demo_files output_file_nc = Some f_nc,
            csv_column f 0 = [:: Some (Int 1%R); Some (Int 2%R)] /\
            csv_column f_nc 0 = csv_column f 0,
            csv_column f 1 = [:: Some (Int 117%R); Some (Int 508%R)] /\
            csv_column f_nc 1 = csv_column f 1
          & csv_column f_nc 3 = csv_column f 3]].
Proof.
do 3!eexists; split.
- vm_compute; reflexivity.
- split; reflexivity.
- do 2?split; reflexivity.
- exact: demo_run_done.
- split; try (vm_compute; reflexivity); split; vm_compute; reflexivity.
Qed.

(** ** Section 3a on any phenotype table *)

Section AlignGeneral.

Variables (acn : eqType) (F : Type).
Implicit Types (pheno : dataframe F acn) (geno : geno_hdf acn).
Implicit Types (df : dataframe F acn) (ks : seq acn).

Lemma count_le1_uniq (T : eqType) (s : seq T) :
  (forall x, count_mem x s <= 1) -> uniq s.
Proof.
move=> le1; apply: count_mem_uniq => x; move: (le1 x).
by rewrite -has_pred1 has_count; case: (count_mem x s) => [|[|n]].
Qed.

Lemma uniq_count_le1 (T : eqType) (s : seq T) (x : T) :
  uniq s -> count_mem x s <= 1.
Proof. by move=> Us; rewrite count_uniq_mem // leq_b1. Qed.

Lemma count_mem_blocks df ks (x : acn) :
  count_mem x (labels (blocks df ks)) =
  count_mem x ks * count_mem x (labels df).
Proof.
rewrite /labels /blocks /=; elim: ks => [|k ks IHk] //=.
rewrite map_cat count_cat IHk labels_rows_at mulnDl; congr (_ + _).
rewrite count_filter; case: eqP => [->|ne_k] /=.
  by rewrite mul1n; apply: eq_count => y /=; rewrite andbb.
rewrite mul0n -(count_pred0 (labels df)); apply: eq_count => y /=.
by apply/negP => /andP[/eqP-> /eqP xk]; apply: ne_k.
Qed.

Lemma count_mem_genotyped pheno geno (x : acn) :
  count_mem x (genotyped_of pheno geno) =
  if x \in accessions geno then count_mem x (labels pheno) else 0.
Proof.
rewrite /genotyped_of count_filter; case: ifP => x_G.
  by apply: eq_count => y /=; case: eqP => // ->.
rewrite -(count_pred0 (labels pheno)); apply: eq_count => y /=.
by apply/negP => /andP[/eqP->]; rewrite x_G.
Qed.

(** The labels after the first [loc] repeat a label as often as the
    square of its number of occurrences. *)
Lemma uniq_labels_genotyped pheno geno :
  uniq (labels (blocks pheno (genotyped_of pheno geno))) =
  uniq (genotyped_of pheno geno).
Proof.
apply/idP/idP => Us; apply: count_le1_uniq => x.
- have := uniq_count_le1 x Us.
  rewrite count_mem_blocks count_mem_genotyped; case: ifP => // _.
  by case: (count_mem x (labels pheno)) => [|[|n]].
- have := uniq_count_le1 x Us.
  rewrite count_mem_blocks count_mem_genotyped; case: ifP => // _.
  by case: (count_mem x (labels pheno)) => [|[|n]].
Qed.

Lemma labels_blocks_in df ks :
  (forall k, k \in ks -> [seq l <- labels df | l == k] = [:: k]) ->
  labels (blocks df ks) = ks.
Proof.
rewrite /labels /blocks /=; elim: ks => [|k ks IHk] //= one.
rewrite map_cat labels_rows_at one ?in_cons ?eqxx //= IHk // => y y_ks.
by rewrite one // in_cons y_ks orbT.
Qed.

Lemma labels_genotyped pheno geno :
  uniq (genotyped_of pheno geno) ->
  labels (blocks pheno (genotyped_of pheno geno)) = genotyped_of pheno geno.
Proof.
move=> Us; apply: labels_blocks_in => k k_P1.
have -> : [seq l <- labels pheno | l == k] =
          [seq l <- genotyped_of pheno geno | pred1 k l].
  rewrite /genotyped_of -filter_predI; apply: eq_filter => y /=.
  case: eqP => // ->; move: k_P1.
  by rewrite mem_filter => /andP[->].
by rewrite filter_pred1_uniq.
Qed.

Lemma mem_labels_blocks df ks (x : acn) :
  x \in labels (blocks df ks) -> (x \in ks) && (x \in labels df).
Proof.
rewrite -!has_pred1 !has_count count_mem_blocks muln_gt0.
by [].
Qed.

Lemma take_idx_pmap (T : Type) (s : seq T) (idx : seq nat) :
  all (fun i => i < size s) idx -> take_idx s idx = Ok (pmap (onth s) idx).
Proof.
rewrite /take_idx; elim: idx => [|i idx IHi] //= /andP[lt_i ok_idx].
rewrite /getitem; case: s lt_i ok_idx IHi => [|x0 s] // lt_i ok_idx IHi.
by rewrite (onth_nth x0) //= IHi.
Qed.

Lemma index_inj_in (s : seq acn) : {in s &, injective (fun a => index a s)}.
Proof.
by move=> a b a_s b_s eq_ab; rewrite -(nth_index a a_s) eq_ab nth_index.
Qed.

Lemma sorted_indices_ltn pheno geno :
  sorted ltn (sorted_indices pheno geno) = uniq (genotyped_of pheno geno).
Proof.
rewrite /sorted_indices ltn_sorted_uniq_leq sort_uniq (sort_sorted leq_total).
rewrite andbT map_inj_in_uniq // => a b; rewrite !mem_filter.
by move=> /andP[a_G _] /andP[b_G _]; apply: index_inj_in.
Qed.

Lemma sorted_indices_bound pheno geno :
  all (fun i => i < size (accessions geno)) (sorted_indices pheno geno).
Proof.
apply/allP => i; rewrite mem_sort => /mapP[a]; rewrite mem_filter.
by case/andP=> a_G _ ->; rewrite index_mem.
Qed.

Lemma mem_sorted_order pheno geno (x : acn) :
  (x \in sorted_order pheno geno) = (x \in genotyped_of pheno geno).
Proof.
rewrite /sorted_order mem_pmap; apply/mapP/idP => [[i]|x_P1].
  rewrite /sorted_indices mem_sort => /mapP[a a_P1 ->] /esym.
  have a_G : a \in accessions geno by move: a_P1; rewrite mem_filter => /andP[].
  by rewrite (onth_nth a) ?index_mem // nth_index // => -[<-].
have x_G : x \in accessions geno by move: x_P1; rewrite mem_filter => /andP[].
exists (index x (accessions geno)).
  by rewrite /sorted_indices mem_sort; apply: map_f.
by rewrite (onth_nth x) ?index_mem // nth_index.
Qed.

Lemma bind_Ok (A B : Type) (x : A) (k : A -> result B) :
  Py.bind (Ok x) k = k x.
Proof. by []. Qed.

(** Section 3a in general: it goes through exactly when no genotyped
    accession labels two phenotype rows. *)
Lemma cell_3a_cases pheno geno :
  cell_3a pheno geno =
  if uniq (genotyped_of pheno geno) then
    Ok (Aligned (blocks pheno (sorted_order pheno geno))
          (sorted_indices pheno geno) (sorted_order pheno geno)
          (to_numpy (blocks pheno (sorted_order pheno geno))))
  else Raise TypeError.
Proof.
rewrite /cell_3a acn_genotypedE -/(genotyped_of pheno geno).
have P1_P : all (fun k => k \in labels pheno) (genotyped_of pheno geno).
  by apply/allP => a; rewrite mem_filter => /andP[].
rewrite locE // bind_Ok.
have L1_G : all (fun a => a \in accessions geno) (labels (blocks pheno (genotyped_of pheno geno))).
  apply/allP => a /mem_labels_blocks/andP[]; rewrite mem_filter.
  by case/andP.
have -> : mapM (where0 (accessions geno)) (labels (blocks pheno (genotyped_of pheno geno))) =
              Ok [seq index a (accessions geno) | a <- labels (blocks pheno (genotyped_of pheno geno))].
  apply: (@mapM_map_ok _ _ _ _ (fun a => a \in accessions geno)) => // a a_G.
  by rewrite where0E a_G.
rewrite bind_Ok.
case: ifP => UP1; last first.
  have inj : {in labels (blocks pheno (genotyped_of pheno geno)) &,
               injective (fun a => index a (accessions geno))}.
    by move=> a b /(allP L1_G) a_G /(allP L1_G) b_G; apply: index_inj_in.
  rewrite /h5_take /h5_increasing ltn_sorted_uniq_leq sort_uniq.
  by rewrite (map_inj_in_uniq inj) uniq_labels_genotyped UP1.
rewrite (labels_genotyped UP1) -/(sorted_indices pheno geno).
rewrite /h5_take /h5_increasing sorted_indices_ltn UP1.
rewrite take_idx_pmap ?sorted_indices_bound // bind_Ok.
rewrite -/(sorted_order pheno geno).
have ord_P1 : all (fun k => k \in (genotyped_of pheno geno)) (sorted_order pheno geno).
  by apply/allP => a; rewrite mem_sorted_order.
rewrite locE ?(labels_genotyped UP1) // bind_Ok; congr (Ok _).
have -> : blocks (blocks pheno (genotyped_of pheno geno)) (sorted_order pheno geno) =
          blocks pheno (sorted_order pheno geno).
  rewrite /blocks /=; congr (DataFrame _ (flatten _)).
  by apply/eq_in_map => k k_ord; rewrite rows_at_blocks // (allP ord_P1).
by [].
Qed.

Lemma uniq_genotyped pheno geno :
  uniq (genotyped_of pheno geno) =
  ~~ has (fun a => 1 < count_mem a (labels pheno)) (accessions geno).
Proof.
apply/idP/idP => [Us|/hasPn no_dup].
  apply/hasPn => a a_G; rewrite -leqNgt.
  by have := uniq_count_le1 a Us; rewrite count_mem_genotyped a_G.
apply: count_le1_uniq => x; rewrite count_mem_genotyped.
by case: ifP => // x_G; rewrite leqNgt; apply: no_dup.
Qed.

Lemma index_pmap_onth (s : seq acn) (idx : seq nat) :
  (forall i, i \in idx -> exists2 a, a \in s & i = index a s) ->
  [seq index a s | a <- pmap (onth s) idx] = idx.
Proof.
elim: idx => [|i idx IHi] //= first.
have [a a_s ->] := first i (mem_head _ _).
rewrite (onth_nth a) ?index_mem // nth_index //= IHi // => j j_idx.
by apply: first; rewrite in_cons j_idx orbT.
Qed.

Lemma index_sorted_order pheno geno :
  [seq index a (accessions geno) | a <- sorted_order pheno geno] =
  sorted_indices pheno geno.
Proof.
apply: index_pmap_onth => i; rewrite mem_sort => /mapP[a a_P1 ->].
by exists a => //; move: a_P1; rewrite mem_filter => /andP[].
Qed.

Lemma size_sorted_order pheno geno :
  size (sorted_order pheno geno) = size (sorted_indices pheno geno).
Proof. by rewrite -index_sorted_order size_map. Qed.

Lemma uniq_sorted_order pheno geno :
  uniq (genotyped_of pheno geno) -> uniq (sorted_order pheno geno).
Proof.
rewrite -sorted_indices_ltn -index_sorted_order => /sorted_uniq Us.
by apply: map_uniq (Us ltn_trans ltnn).
Qed.

Lemma labels_sorted_order pheno geno :
  uniq (genotyped_of pheno geno) ->
  labels (blocks pheno (sorted_order pheno geno)) = sorted_order pheno geno.
Proof.
move=> Us; apply: labels_blocks_in => k; rewrite mem_sorted_order => k_P1.
have -> : [seq l <- labels pheno | l == k] =
          [seq l <- genotyped_of pheno geno | pred1 k l].
  rewrite /genotyped_of -filter_predI; apply: eq_filter => y /=.
  case: eqP => // ->; move: k_P1.
  by rewrite mem_filter => /andP[->].
by rewrite filter_pred1_uniq.
Qed.

Lemma count_mem_rows_at df (x : acn) :
  count_mem x (labels df) = size (rows_at df x).
Proof.
rewrite -size_filter -(size_map (fun r => r.1) (rows_at df x)) labels_rows_at.
by congr (size _); apply: eq_filter => y; rewrite eq_sym.
Qed.

(** Section 3a raises h5py's [TypeError] exactly when an accession
    of the genotype file labels two rows of the phenotype table, and returns
    otherwise: no other exception can leave the cell. *)
Theorem cell_3a_duplicates pheno geno :
  if has (fun a => 1 < count_mem a (labels pheno)) (accessions geno)
  then cell_3a pheno geno = Raise TypeError
  else is_ok (cell_3a pheno geno).
Proof.
by rewrite cell_3a_cases uniq_genotyped; case: (has _ _).
Qed.

(** Section 3a run a second time, on the phenotype table it left behind
    and with the genotype file still open, returns the same table, indices,
    order and matrix. *)
Theorem cell_3a_idempotent pheno geno (a : aligned acn F) :
  cell_3a pheno geno = Ok a -> cell_3a (pheno_aligned a) geno = Ok a.
Proof.
rewrite cell_3a_cases; case: ifP => // UP1 [<-] /=.
have Uord := uniq_sorted_order UP1.
have E : genotyped_of (blocks pheno (sorted_order pheno geno)) geno =
         sorted_order pheno geno.
  rewrite /genotyped_of (labels_sorted_order UP1); apply/all_filterP.
  apply/allP => x; rewrite mem_sorted_order mem_filter.
  by case/andP.
have EI : sorted_indices (blocks pheno (sorted_order pheno geno)) geno =
          sorted_indices pheno geno.
  rewrite {1}/sorted_indices E index_sorted_order.
  rewrite /sorted_indices; apply: sorted_sort; first exact: leq_trans.
  exact: (sort_sorted leq_total).
have EO : sorted_order (blocks pheno (sorted_order pheno geno)) geno =
          sorted_order pheno geno.
  by rewrite {1}/sorted_order EI.
rewrite cell_3a_cases E Uord EI EO.
have -> : blocks (blocks pheno (sorted_order pheno geno))
            (sorted_order pheno geno) =
          blocks pheno (sorted_order pheno geno).
  rewrite /blocks /=; congr (DataFrame _ (flatten _)).
  by apply/eq_in_map => k k_ord; rewrite rows_at_blocks.
by [].
Qed.

(** Section 3a reads the phenotype table only through its column
    names and the rows under each label: two tables that agree on these, such
    as one table with its rows in two different orders, give the same
    result. *)
Theorem cell_3a_row_order pheno pheno' geno :
  columns pheno = columns pheno' ->
  (forall k, rows_at pheno k = rows_at pheno' k) ->
  cell_3a pheno geno = cell_3a pheno' geno.
Proof.
move=> Ecol Erows.
have perm : perm_eq (genotyped_of pheno geno) (genotyped_of pheno' geno).
  apply/allP => x _ /=.
  by rewrite !count_mem_genotyped !count_mem_rows_at Erows.
have EI : sorted_indices pheno geno = sorted_indices pheno' geno.
  by apply/perm_sortP; [apply: leq_total | apply: leq_trans
                       | apply: anti_leq | apply: perm_map].
have EO : sorted_order pheno geno = sorted_order pheno' geno.
  by rewrite /sorted_order EI.
have EB : blocks pheno (sorted_order pheno' geno) =
          blocks pheno' (sorted_order pheno' geno).
  rewrite /blocks Ecol; congr (DataFrame _ (flatten _)).
  by apply/eq_map => k; apply: Erows.
by rewrite !cell_3a_cases (perm_uniq perm) EI EO EB.
Qed.

(** Whenever section 3a returns, on any phenotype table and any
    genotype file, [acn_order] lists each accession that is both phenotyped
    and genotyped once, the phenotype table left behind has exactly these
    labels in this order, and [acn_indices] holds, in increasing order, the
    first position of each of them in the genotype file. *)
Theorem cell_3a_post pheno geno (a : aligned acn F) :
  cell_3a pheno geno = Ok a ->
  [/\ uniq (acn_order a),
      forall x, (x \in acn_order a) =
                (x \in labels pheno) && (x \in accessions geno),
      labels (pheno_aligned a) = acn_order a,
      sorted ltn (geno_indices a)
    & geno_indices a = [seq index x (accessions geno) | x <- acn_order a]].
Proof.
rewrite cell_3a_cases; case: ifP => // UP1 [<-] /=; split.
- exact: uniq_sorted_order.
- by move=> x; rewrite mem_sorted_order mem_filter andbC.
- exact: labels_sorted_order.
- by rewrite sorted_indices_ltn.
- by rewrite index_sorted_order.
Qed.

Lemma all_blocks df ks (P : pred (acn * seq (cell F))) :
  all P (body df) -> all P (body (blocks df ks)).
Proof.
move=> all_df; rewrite /blocks /=; elim: ks => [|k ks IHk] //=.
rewrite all_cat IHk andbT /rows_at all_filter.
by apply: sub_all all_df => r Pr /=; rewrite Pr implybT.
Qed.

End AlignGeneral.

Section LoadedTheorems.

Variables (ident : Type) (acn : eqType) (encode : ident -> acn) (F : Type).

(** No missing value reaches the phenotype matrix: when section 3a
    returns on the loaded table, no row of [Y] holds a NaN. *)
Theorem no_missing_in_Y (raw : dataframe F ident) geno (a : aligned acn F) :
  cell_3a (load_pheno encode raw) geno = Ok a ->
  all (fun r => ~~ has isna r) (rows (Y a)).
Proof.
rewrite cell_3a_cases; case: ifP => // _ [<-] /=.
rewrite all_map; apply: all_blocks.
by rewrite load_pheno_body all_map; apply: filter_all.
Qed.

End LoadedTheorems.

(** ** Shapes of the three matrices *)

Section ShapeFacts.

Lemma mapM_all (A B : Type) (f : A -> result B) (P : pred B) (s : seq A)
    (t : seq B) :
  (forall x y, f x = Ok y -> P y) -> mapM f s = Ok t -> all P t.
Proof.
move=> fP; elim: s t => [|x s IHs] t /=; first by case=> <-.
case Ex: (f x) => [y|] //=; case Es: (mapM f s) => [t'|] //= [<-] /=.
by rewrite (fP _ _ Ex) (IHs _ Es).
Qed.

Lemma take_cols_wf (T : Type) (rs : seq (seq T)) (idx : seq nat)
    (t : seq (seq T)) :
  mapM (fun r => take_idx r idx) rs = Ok t ->
  all (fun r => size r == size idx) t.
Proof.
by apply: mapM_all => r r' /mapM_size ->.
Qed.

Lemma h5_take_cols_inv (T : Type) (a b : array2 T) (idx : seq nat) :
  h5_take_cols a idx = Ok b ->
  [/\ ncols b = size idx, size (rows b) = size (rows a) & wf_array2 b].
Proof.
rewrite /h5_take_cols; case: ifP => // _; case: ifP => // _.
case Ers: (mapM _ _) => [rs|] //= [<-]; split=> //=.
  exact: mapM_size Ers.
exact: take_cols_wf Ers.
Qed.

Lemma kinship_subset_wf (F : Type) (a K0 : array2 F) (idx : seq nat) :
  kinship_subset a idx = Ok K0 -> wf_array2 K0.
Proof.
rewrite /kinship_subset /h5_take_rows; case: ifP => // _.
case: (take_idx _ _) => [rs|] //=; rewrite /np_take_cols /=.
case Ers: (mapM _ _) => [t|] //= [<-].
exact: take_cols_wf Ers.
Qed.

Lemma transpose_wf (a : array2 int) : wf_array2 a -> wf_array2 (transpose a).
Proof.
move=> wf_a; rewrite /wf_array2 (transpose_rows wf_a) /=.
by apply/allP => r /mapP[j _ ->]; rewrite size_map.
Qed.

Lemma mapM_where0 (acn : eqType) (arr s : seq acn) :
  mapM (where0 arr) s =
  if all (fun a => a \in arr) s then Ok [seq index a arr | a <- s]
  else Raise IndexError.
Proof.
elim: s => [|a s IHs] //=; rewrite where0E; case: ifP => //= _.
by rewrite IHs; case: ifP.
Qed.

End ShapeFacts.

Section ShapeTheorems.

Variables (ident : Type) (acn : eqType) (encode : ident -> acn) (F : Type).
Variables (true_divide : int -> nat -> F) (fge : F -> F -> bool).
Variables (MAF_thrs : F) (scan : runner F).

Local Notation prep := (prepare true_divide fge MAF_thrs).
Local Notation run := (notebook encode true_divide fge MAF_thrs scan).
Local Notation c3b := (cell_3b true_divide fge MAF_thrs).

Implicit Types (pheno : dataframe F acn) (geno : geno_hdf acn).
Implicit Types (kin : kin_hdf acn F).

(** Whenever sections 3a to 3c go through, on any input files, the
    three matrices fit together: [Y] has one row per aligned accession,
    [G] is N x M for the M retained SNPs and [K] is N x N, with every row
    of [G] and [K] of full length. *)
Theorem prepare_shapes pheno geno kin p :
  prep pheno geno kin = Ok p ->
  let N := size (acn_order (al p)) in
  [/\ shape (Y (al p)) = (N, size (columns pheno)),
      shape (G (fl p)) = (N, size (SNP_indices (fl p))),
      shape (K p) = (N, N),
      wf_array2 (G (fl p)) & wf_array2 (K p)].
Proof.
move=> Ep; have [] := prepare_inv Ep.
rewrite cell_3a_cases; case: ifP => // UP1 [Ea] E3b E3c.
have Elab : labels (pheno_aligned (al p)) = acn_order (al p).
  by rewrite -Ea /=; apply: labels_sorted_order.
have EI : size (geno_indices (al p)) = size (acn_order (al p)).
  by rewrite -Ea /= size_sorted_order.
have [G0 EG0 Ef] := cell_3b_inv E3b.
have [nc_G0 _ wf_G0] := h5_take_cols_inv EG0.
have wf_m m : wf_array2 (Array2 (ncols G0) (mask m (rows G0))).
  by rewrite /wf_array2 /=; apply: all_mask.
have [_ nc_G _] := filtered_sizes E3b.
move: E3c; rewrite /cell_3c; case Eidx: (mapM _ _) => [idx|] //= EK.
have sz_idx : size (sort leq idx) = size (acn_order (al p)).
  by rewrite size_sort (mapM_size Eidx) Elab.
split=> //.
- have -> : shape (Y (al p)) =
            (size (labels (pheno_aligned (al p))), size (columns pheno)).
    by rewrite -Ea /shape /labels /= !size_map.
  by rewrite Elab.
- rewrite /shape nc_G; congr (_, _).
  by rewrite Ef /= size_map size_iota nc_G0.
- by rewrite (kinship_subset_shape EK) sz_idx.
- by rewrite Ef /=; apply: transpose_wf.
- exact: kinship_subset_wf EK.
Qed.

(** When an aligned accession is not listed in the kinship file,
    section 3c stops with numpy's [IndexError] (from [np.where(...)[0][0]])
    and the notebook writes no file. *)
Theorem missing_kinship_aborts (raw : dataframe F ident) geno kin fs a f :
  cell_3a (load_pheno encode raw) geno = Ok a ->
  c3b geno (geno_indices a) = Ok f ->
  has (fun x => x \notin kin_accessions kin) (acn_order a) ->
  run raw geno kin fs = (fs, Raise IndexError).
Proof.
move=> E3a E3b missing; apply: notebook_prepare_raises.
rewrite /prepare E3a /= E3b /= /cell_3c mapM_where0.
move: E3a missing; rewrite cell_3a_cases; case: ifP => // UP1 [<-] /=.
by rewrite (labels_sorted_order UP1) has_predC => /negPf ->.
Qed.

End ShapeTheorems.

Section WhereTheorems.

Variable acn : eqType.

(** [np.where(arr == a)[0][0]] is the first position of [arr] that
    holds [a], and an [IndexError] when [a] is not in [arr]. *)
Theorem where0_first (arr : seq acn) (a : acn) :
  if a \in arr then
    exists i, [/\ where0 arr a = Ok i, getitem arr i = Ok a
                & forall j, j < i -> getitem arr j <> Ok a]
  else where0 arr a = Raise IndexError.
Proof.
rewrite where0E; case: ifP => a_arr; rewrite a_arr //.
exists (index a arr); split=> //.
  exact: getitem_index.
move=> j lt_j; have lt_sz : j < size arr.
  by apply: ltn_trans lt_j _; rewrite index_mem.
rewrite (getitem_nth a) // => -[Ea].
by have := before_find a lt_j; rewrite /= Ea eqxx.
Qed.

End WhereTheorems.

(** ** Section 3b: allele counts of any genotype matrix *)

Section CountGeneral.

Local Open Scope ring_scope.

Lemma MAC_ofE (G0 : array2 int) :
  MAC_of G0 =
  [seq Num.min ((ncols G0)%:Z - sumz r) (sumz r) | r <- rows G0].
Proof.
rewrite /MAC_of -[X in zip _ X]map_id zip_map -!map_comp.
by apply: eq_map.
Qed.

Lemma sumz_flip_row (r : seq int) :
  sumz (flip_row r) = (size r)%:Z - sumz r.
Proof.
elim: r => [|v r IHr] /=; first by rewrite subrr.
by rewrite IHr intS opprD addrACA.
Qed.

Lemma MAC_of_flip (G0 : array2 int) :
  wf_array2 G0 -> MAC_of (flip G0) = MAC_of G0.
Proof.
move=> wf_G; rewrite !MAC_ofE /= -map_comp; apply/eq_in_map => r r_G /=.
by rewrite sumz_flip_row (eqP (allP wf_G _ r_G)) subKr minC.
Qed.

Lemma pmap_omap (A B C : Type) (f : A -> option B) (g : B -> C) (s : seq A) :
  pmap (fun x => omap g (f x)) s = [seq g y | y <- pmap f s].
Proof. by elim: s => [|x s IHs] //=; case: (f x) => [y|] /=; rewrite IHs. Qed.

Lemma column_flip (a : array2 int) (j : nat) :
  column (flip a) j = flip_row (column a j).
Proof.
rewrite /column /flip /=; elim: (rows a) => [|r rs IHr] //=.
by rewrite onth_map; case: (onth r j) => [v|] /=; rewrite IHr.
Qed.

Lemma transpose_flip (a : array2 int) : transpose (flip a) = flip (transpose a).
Proof.
rewrite /transpose [in RHS]/flip /= size_map -map_comp; congr (Array2 _ _).
by apply: eq_map => j /=; apply: column_flip.
Qed.

Lemma min_half (N a : int) : Num.min (N - a) a + Num.min (N - a) a <= N.
Proof.
rewrite -{3}(subrK a N) minElt; case: ltP => [lt_a|le_a].
  by rewrite lerD2l ltW.
by rewrite lerD2r.
Qed.

End CountGeneral.

Section CountTheorems.

Variables (F : Type) (true_divide : int -> nat -> F).
Variables (fge : F -> F -> bool) (MAF_thrs : F).

Local Open Scope ring_scope.

(** On a matrix of 0/1 calls with N accessions, every minor allele
    count lies between 0 and N/2. *)
Theorem MAC_bounds (G0 : array2 int) :
  wf_array2 G0 -> all binary (rows G0) ->
  all (fun m : int => (0 <= m) && (m + m <= (ncols G0)%:Z)) (MAC_of G0).
Proof.
move=> wf_G bin_G; rewrite MAC_ofE; apply/allP => m /mapP[r r_G ->].
rewrite min_half andbT.
by rewrite (MAC_binary (allP bin_G _ r_G) (eqP (allP wf_G _ r_G))).
Qed.

(** The filter does not depend on which allele is coded 1: with
    every call [v] replaced by [1 - v], the frequencies and the retained SNPs
    are the same, and the retained calls are the replaced ones. *)
Theorem maf_filter_flip (G0 : array2 int) (f : filtered F) :
  wf_array2 G0 ->
  cell_3b_filter true_divide fge MAF_thrs G0 = Ok f ->
  cell_3b_filter true_divide fge MAF_thrs (flip G0) =
  Ok (Filtered (MAF f) (SNP_indices f) (SNPs_MAF f) (flip (G f))).
Proof.
move=> wf_G; rewrite !cell_3b_filterE => -[<-] /=.
rewrite /MAF_of (MAC_of_flip wf_G) /= -transpose_flip /flip /= map_mask.
by [].
Qed.

End CountTheorems.

(** ** Sections 5b and 5d on any scan result *)

Section TableFacts.

Lemma take_idx_cases (T : Type) (s : seq T) (idx : seq nat) :
  take_idx s idx =
  if all (fun i => i < size s) idx then Ok (pmap (onth s) idx)
  else Raise IndexError.
Proof.
case: ifP => [|/negbT]; first exact: take_idx_pmap.
rewrite /take_idx; elim: idx => [|i idx IHi] //=.
rewrite negb_and /getitem -leqNgt; case: (leqP (size s) i) => [le_i _|lt_i] /=.
  by rewrite onth_default.
by case: (onth s i) => [x|] //= /IHi ->.
Qed.

Lemma find_mono (a : seq nat) (x y : nat) :
  x <= y -> find (fun e => x < e) a <= find (fun e => y < e) a.
Proof. by move=> le_xy; apply: sub_find => e /=; apply: leq_ltn_trans. Qed.

End TableFacts.

Section TableTheorems.

Variables (acn : eqType) (F : Type).
Variables (true_divide : int -> nat -> F) (fge : F -> F -> bool).
Variable MAF_thrs : F.

Implicit Types (geno : geno_hdf acn).

(** With the chromosome ends in increasing order, the [chr] column
    of the retained SNPs never decreases and stays between 1 and the number
    of chromosomes plus one. *)
Theorem chromosomes_sorted geno (G0 : array2 int) (f : filtered F) :
  sorted leq [seq c.2 | c <- chr_regions geno] ->
  cell_3b_filter true_divide fge MAF_thrs G0 = Ok f ->
  sorted leq (chromosomes_of geno (SNP_indices f)) /\
  all (fun c => 0 < c <= (size (chr_regions geno)).+1)
      (chromosomes_of geno (SNP_indices f)).
Proof.
move=> ends_sorted; rewrite cell_3b_filterE => -[<-] /=.
rewrite /chromosomes_of /chromosome_of; split.
  apply: (@homo_sorted _ _ _ ltn) (np_where_sorted _) => x y lt_xy.
  by rewrite ltnS !bisect_find //; apply: find_mono; apply: ltnW.
apply/allP => c /mapP[i _ ->]; rewrite /= ltnS bisect_find //.
by rewrite -(size_map (fun c => c.2) (chr_regions geno)) find_size.
Qed.

(** The result table is built exactly when every retained SNP has
    a position; it then has the five columns and as many rows as the
    shortest of its columns, whatever the runner returned; otherwise the
    lookup of a position raises [IndexError]. *)
Theorem gwas_results_cases geno (idx : seq nat) (mafs : seq F)
    (r : scan_result F) :
  if all (fun i => i < size (positions geno)) idx then
    exists2 gw, gwas_results geno idx mafs r = Ok gw &
      columns gw = result_columns /\
      size (body gw) =
      minn (size idx)
        (minn (size (pv20 r)) (minn (size mafs) (size (effsizes_of r))))
  else gwas_results geno idx mafs r = Raise IndexError.
Proof.
rewrite /gwas_results /positions_of -/(take_idx _ _) take_idx_cases.
case: ifP => in_range; rewrite in_range //=; eexists; first by [].
split=> //=; rewrite size_zip size_iota size_map minnn !size_zip size_map.
have -> : size (pmap (onth (positions geno)) idx) = size idx.
  rewrite size_pmap -(count_predT idx); apply: eq_in_count => i i_idx /=.
  by rewrite (onth_nth 0%R) // (allP in_range).
by rewrite minnA minnn.
Qed.

End TableTheorems.

(** ** The file store after a run *)

Section StoreTheorems.

Variables (ident : Type) (acn : eqType) (encode : ident -> acn) (F : Type).
Variables (true_divide : int -> nat -> F) (fge : F -> F -> bool).
Variables (MAF_thrs : F) (scan : runner F).

Local Notation prep := (prepare true_divide fge MAF_thrs).
Local Notation run := (notebook encode true_divide fge MAF_thrs scan).

(** However the run ends, a file at a path other than the two
    output paths is left as it was. *)
Theorem notebook_writes_only (raw : dataframe F ident) geno kin fs fs' res
    (path : string) :
  run raw geno kin fs = (fs', res) ->
  String.eqb path output_file = false ->
  String.eqb path output_file_nc = false ->
  read_file fs' path = read_file fs path.
Proof.
move=> Erun not_out not_nc; move: Erun.
rewrite /notebook /io_bind /lift /to_csv.
case: (prep _ _ _) => [p|e]; last by case=> <-.
case: (scan _ _ (Some _)) => [r|e]; last by case=> <-.
case: (gwas_results _ _ _ r) => [gw|e]; last by case=> <-.
have E1 := read_file_other fs (csv_of_frame gw false) not_out.
rewrite [write_file output_file _ _]surjective_pairing.
have -> : (write_file output_file (csv_of_frame gw false) fs).2 = Ok tt by [].
case: (scan _ _ None) => [r_nc|e]; last by case=> <- _; rewrite E1.
case: (gwas_results _ _ _ r_nc) => [gw_nc|e]; last by case=> <- _; rewrite E1.
have E2 := read_file_other
  (write_file output_file (csv_of_frame gw false) fs).1
  (csv_of_frame gw_nc false) not_nc.
by case=> <- _; apply: etrans E2 E1.
Qed.

(** A run that fails has written nothing, unless it is the scan
    without kinship that failed: the first result file is then in place
    and the second is not written.  Once the first table is built, building
    the second cannot fail. *)
Theorem notebook_failure (raw : dataframe F ident) geno kin fs fs' e :
  run raw geno kin fs = (fs', Raise e) ->
  fs' = fs \/
  exists p r gw,
    [/\ prep (load_pheno encode raw) geno kin = Ok p,
        scan (G (fl p)) (Y (al p)) (Some (K p)) = Ok r,
        gwas_results geno (SNP_indices (fl p)) (SNPs_MAF (fl p)) r = Ok gw,
        scan (G (fl p)) (Y (al p)) None = Raise e
      & fs' = (write_file output_file (csv_of_frame gw false) fs).1].
Proof.
rewrite /notebook /io_bind /lift /to_csv.
case Ep: (prep _ _ _) => [p|e1]; last by case=> <-; left.
case Er: (scan _ _ (Some _)) => [r|e1]; last by case=> <-; left.
case Egw: (gwas_results _ _ _ r) => [gw|e1]; last by case=> <-; left.
rewrite [write_file output_file _ _]surjective_pairing.
have -> : (write_file output_file (csv_of_frame gw false) fs).2 = Ok tt by [].
case Enc: (scan _ _ None) => [r_nc|e1].
  have [pos Epos _] := gwas_results_inv Egw.
  by rewrite /gwas_results Epos.
by case=> <- <-; right; exists p, r, gw.
Qed.

End StoreTheorems.

(** ** [bisect] on any array *)

Section BisectGeneral.

Variables (a : seq nat) (x : nat).

Lemma bisect_loop_fuel (f1 f2 lo hi : nat) :
  hi - lo <= f1 -> hi - lo <= f2 ->
  bisect_loop f1 a x lo hi = bisect_loop f2 a x lo hi.
Proof.
elim: f1 f2 lo hi => [|f1 IHf] [|f2] lo hi //=.
- by rewrite leqn0 subn_eq0 leqNgt => /negPf ->.
- by move=> _; rewrite leqn0 subn_eq0 leqNgt => /negPf ->.
case: ifP => // lt_lh le1 le2; have /andP[le_m lt_m] := mid_bounds lt_lh.
have lt1 : (lo + hi) %/ 2 - lo < hi - lo by rewrite ltn_sub2r.
have lt2 : hi - ((lo + hi) %/ 2).+1 < hi - lo.
  by rewrite ltn_sub2l // ltnS.
case: ifP => _; apply: IHf.
- exact: leq_trans lt1 le1.
- exact: leq_trans lt1 le2.
- exact: leq_trans lt2 le1.
- exact: leq_trans lt2 le2.
Qed.

Lemma bisect_loop_bound (fuel lo hi : nat) :
  lo <= hi -> lo <= bisect_loop fuel a x lo hi <= hi.
Proof.
elim: fuel lo hi => [|fuel IHf] lo hi le_lh /=; first by rewrite leqnn.
case: ifP => [lt_lh|_]; last by rewrite leqnn.
have /andP[le_m lt_m] := mid_bounds lt_lh.
case: ifP => _.
  have /andP[le1 le2] := IHf _ _ le_m.
  by rewrite le1 (leq_trans le2 (ltnW lt_m)).
have /andP[le1 le2] := IHf _ _ lt_m.
by rewrite le2 andbT (leq_trans _ le1) // ltnW.
Qed.

(** On any array, sorted or not, the search loop ends within
    [len(a)] rounds (more fuel gives the same result) and returns a
    position between 0 and [len(a)], so every chromosome number is between
    1 and the number of chromosomes plus one. *)
Theorem bisect_terminates (fuel : nat) :
  size a <= fuel ->
  bisect_loop fuel a x 0 (size a) = bisect a x /\ bisect a x <= size a.
Proof.
move=> le_f; split; first by apply: bisect_loop_fuel; rewrite subn0.
by have /andP[] := bisect_loop_bound (size a) (leq0n (size a)).
Qed.

End BisectGeneral.

(** ** Section 3c on any kinship file *)

Section KinshipOrder.

Variables (acn : eqType) (F : Type).

(** Whenever section 3c returns, every label of the phenotype table is
    listed in the kinship file, and the rows and columns of [K] follow the
    order of the kinship file, not that of the table: row [i] of [K]
    belongs to the label with the [i]-th smallest position in the kinship
    file. *)
Theorem cell_3c_order (kin : kin_hdf acn F) (pheno : dataframe F acn)
    (K0 : array2 F) :
  cell_3c kin pheno = Ok K0 ->
  let idx :=
    sort leq [seq index a (kin_accessions kin) | a <- labels pheno] in
  [/\ all (fun a => a \in kin_accessions kin) (labels pheno),
      sorted ltn idx,
      shape K0 = (size (labels pheno), size (labels pheno))
    & forall i j, entry K0 i j =
        match onth idx i, onth idx j with
        | Some u, Some v => entry (kinship kin) u v
        | _, _ => None
        end].
Proof.
rewrite /cell_3c mapM_where0; case: ifP => // in_kin /= EK.
split=> //.
- move: EK; rewrite /kinship_subset /h5_take_rows /h5_increasing.
  by case: (sorted _ _).
- by rewrite (kinship_subset_shape EK) size_sort size_map.
- exact: kinship_subset_entry EK.
Qed.

End KinshipOrder.

(** ** The properties above on the demo data *)

Lemma cell_3c_order_demo :
  exists2 K0, cell_3c DemoKinship.kin_reversed Demo.pheno = Ok K0 &
    shape K0 = (4, 4).
Proof.
have [K0 EK] : exists K0, cell_3c DemoKinship.kin_reversed Demo.pheno = Ok K0.
  eexists; vm_compute; reflexivity.
exists K0; first exact: EK.
have [_ _ shK _] := cell_3c_order EK.
exact: shK.
Defined.

Lemma cell_3a_idempotent_demo :
  exists2 a, cell_3a Demo.pheno Demo.geno = Ok a &
    cell_3a (pheno_aligned a) Demo.geno = Ok a.
Proof.
have [a Ea] : exists a, cell_3a Demo.pheno Demo.geno = Ok a.
  eexists; vm_compute; reflexivity.
exists a; first exact: Ea.
exact: (cell_3a_idempotent Ea).
Defined.

Lemma cell_3a_row_order_demo :
  [/\ columns Demo.pheno = columns DemoOrder.pheno_shuffled,
      forall k, rows_at Demo.pheno k = rows_at DemoOrder.pheno_shuffled k
    & cell_3a Demo.pheno Demo.geno =
      cell_3a DemoOrder.pheno_shuffled Demo.geno].
Proof.
have Erows k : rows_at Demo.pheno k = rows_at DemoOrder.pheno_shuffled k.
  case: k => [|[|[|[|[|k]]]]]; reflexivity.
split; [reflexivity | exact: Erows |].
exact: (@cell_3a_row_order _ _ Demo.pheno DemoOrder.pheno_shuffled Demo.geno
          (erefl _) Erows).
Defined.

Lemma cell_3a_post_demo :
  exists2 a, cell_3a Demo.pheno Demo.geno = Ok a & uniq (acn_order a).
Proof.
have [a Ea] : exists a, cell_3a Demo.pheno Demo.geno = Ok a.
  eexists; vm_compute; reflexivity.
exists a; first exact: Ea.
have [Uo _ _ _ _] := cell_3a_post Ea.
exact: Uo.
Defined.

Lemma no_missing_in_Y_demo :
  exists2 a, cell_3a (load_pheno id DemoLoader.raw) Demo.geno = Ok a &
    all (fun r => ~~ has isna r) (rows (Y a)).
Proof.
have [a Ea] :
    exists a, cell_3a (load_pheno id DemoLoader.raw) Demo.geno = Ok a.
  eexists; vm_compute; reflexivity.
exists a; first exact: Ea.
exact: (no_missing_in_Y Ea).
Defined.

Lemma prepare_shapes_demo :
  exists2 p,
    prepare Demo.true_divide Demo.fge Demo.MAF_thrs Demo.pheno Demo.geno
      DemoKinship.kin = Ok p
    & shape (K p) = (size (acn_order (al p)), size (acn_order (al p))).
Proof.
have [p Ep] :
    exists p, prepare Demo.true_divide Demo.fge Demo.MAF_thrs Demo.pheno
                Demo.geno DemoKinship.kin = Ok p.
  eexists; vm_compute; reflexivity.
exists p; first exact: Ep.
have [_ _ shK _ _] := prepare_shapes Ep.
exact: shK.
Defined.

Lemma missing_kinship_aborts_demo :
  notebook id Demo.true_divide Demo.fge Demo.MAF_thrs DemoRun.scan
    DemoRun.raw Demo.geno DemoMissing.kin [::] = ([::], Raise IndexError).
Proof.
eapply (@missing_kinship_aborts nat _ id rat Demo.true_divide Demo.fge
          Demo.MAF_thrs DemoRun.scan DemoRun.raw Demo.geno DemoMissing.kin
          [::]).
- vm_compute; reflexivity.
- vm_compute; reflexivity.
- vm_compute; reflexivity.
Defined.

Lemma MAC_bounds_demo :
  [/\ wf_array2 DemoFilter.G0, all binary (rows DemoFilter.G0)
    & all (fun m : int => (0 <= m) && (m + m <= 3))%R (MAC_of DemoFilter.G0)].
Proof.
split; [reflexivity | reflexivity |].
exact: (@MAC_bounds DemoFilter.G0 isT isT).
Defined.

Lemma maf_filter_flip_demo :
  exists2 f,
    cell_3b_filter Demo.true_divide Demo.fge Demo.MAF_thrs DemoFilter.G0
      = Ok f
    & cell_3b_filter Demo.true_divide Demo.fge Demo.MAF_thrs
        (flip DemoFilter.G0) =
      Ok (Filtered (MAF f) (SNP_indices f) (SNPs_MAF f) (flip (G f))).
Proof.
have [f Ef] :
    exists f, cell_3b_filter Demo.true_divide Demo.fge Demo.MAF_thrs
                DemoFilter.G0 = Ok f.
  eexists; vm_compute; reflexivity.
exists f; first exact: Ef.
exact: (@maf_filter_flip _ _ _ _ DemoFilter.G0 f isT Ef).
Defined.

Lemma chromosomes_sorted_demo :
  exists2 f,
    cell_3b_filter Demo.true_divide Demo.fge Demo.MAF_thrs DemoFilter.G0
      = Ok f
    & sorted leq (chromosomes_of Demo.geno (SNP_indices f)).
Proof.
have [f Ef] :
    exists f, cell_3b_filter Demo.true_divide Demo.fge Demo.MAF_thrs
                DemoFilter.G0 = Ok f.
  eexists; vm_compute; reflexivity.
exists f; first exact: Ef.
have [srt _] := @chromosomes_sorted _ _ _ _ _ Demo.geno DemoFilter.G0 f isT Ef.
exact: srt.
Defined.

Lemma notebook_writes_only_demo :
  exists2 fs',
    notebook id Demo.true_divide Demo.fge Demo.MAF_thrs DemoRun.scan
      DemoRun.raw Demo.geno DemoKinship.kin DemoMissing.notes = (fs', Ok tt)
    & read_file fs' DemoMissing.notes_file =
      read_file DemoMissing.notes DemoMissing.notes_file.
Proof.
have [fs' Efs] :
    exists fs',
      notebook id Demo.true_divide Demo.fge Demo.MAF_thrs DemoRun.scan
        DemoRun.raw Demo.geno DemoKinship.kin DemoMissing.notes
      = (fs', Ok tt).
  eexists; vm_compute; reflexivity.
exists fs'; first exact: Efs.
apply: (notebook_writes_only Efs); reflexivity.
Defined.

Lemma notebook_failure_demo :
  exists2 fs',
    notebook id Demo.true_divide Demo.fge Demo.MAF_thrs
      DemoMissing.scan_needs_K DemoRun.raw Demo.geno DemoKinship.kin [::]
    = (fs', Raise RunnerError)
    & fs' = [::] \/
      exists p r gw,
        [/\ prepare Demo.true_divide Demo.fge Demo.MAF_thrs
              (load_pheno id DemoRun.raw) Demo.geno DemoKinship.kin = Ok p,
            DemoMissing.scan_needs_K (G (fl p)) (Y (al p)) (Some (K p))
              = Ok r,
            gwas_results Demo.geno (SNP_indices (fl p)) (SNPs_MAF (fl p)) r
              = Ok gw,
            DemoMissing.scan_needs_K (G (fl p)) (Y (al p)) None
              = Raise RunnerError
          & fs' = (write_file output_file (csv_of_frame gw false) [::]).1].
Proof.
have [fs' Efs] :
    exists fs',
      notebook id Demo.true_divide Demo.fge Demo.MAF_thrs
        DemoMissing.scan_needs_K DemoRun.raw Demo.geno DemoKinship.kin [::]
      = (fs', Raise RunnerError).
  eexists; vm_compute; reflexivity.
exists fs'; first exact: Efs.
exact: (notebook_failure Efs).
Defined.

Lemma bisect_terminates_demo :
  bisect_loop 5 [:: 40; 10; 25] 25 0 3 = bisect [:: 40; 10; 25] 25.
Proof.
have [E _] := @bisect_terminates [:: 40; 10; 25] 25 5 isT.
exact: E.
Defined.
